(** * NFT Forge: the procedural art engine of [src/index.ts]

    A shallow embedding of [hashString], [seededRandom], [generateArt] with
    its five renderers and [generateTraits], and the properties of the
    specification that concern them; then of what the routes /preview,
    /forge, /metadata and /image decide before they store or call out.

    Conventions.
    - A JavaScript string that is read through [charCodeAt] (the seed) is the
      list of its UTF-16 code units.  A string that is only compared and
      passed on (the style identifier, colours, names) is a [string].
    - A JavaScript number that holds an integer is a [Z].  Where the source
      can leave the range in which binary64 is exact (the product in
      [seededRandom]) the rounding is written out, see [fl64].
    - A value returned by [rand()] is kept as the exact quotient
      [state / 2147483647] in [Q].  Every test the source makes on a draw
      ([> 0.5], [> 0.4], [Math.floor (draw * n)] for n <= 20) compares a
      multiple of 1/2147483647 with a threshold it misses by at least
      1/(5 * 2147483647), far more than one binary64 rounding step, so the
      exact comparison and the binary64 one agree.
    - Coordinates, radii and opacities are never inspected by the source:
      they are recorded as the arithmetic expression the source evaluates
      ([num]). *)

From Stdlib Require Import ZArith QArith Qround Qpower List String Ascii Bool Lia Lqa.
Import ListNotations.
Local Open Scope Z_scope.

(** ** Numbers *)

Module Js.

(** [ToInt32]: reduction modulo 2^32 into [-2^31, 2^31). *)
Definition toInt32 (x : Z) : Z := (x + 2^31) mod 2^32 - 2^31.

(** [a << n] on numbers holding integers. *)
Definition shl (a n : Z) : Z := toInt32 (Z.shiftl (toInt32 a) (n mod 32)).

(** [a & b] on numbers holding integers. *)
Definition band (a b : Z) : Z := Z.land (toInt32 a) (toInt32 b).

(** Rounding of an integer to binary64, round-to-nearest, ties-to-even:
    integers below 2^53 in magnitude are exact, larger ones keep 53
    significant bits.  (No integer of the program comes near 2^1024.) *)
Definition fl64 (z : Z) : Z :=
  let m := Z.abs z in
  if m <? 2^53 then z
  else
    let sh := Z.log2 m - 52 in
    let q := m / 2^sh in
    let r := m mod 2^sh in
    let half := 2^(sh - 1) in
    let q' := if r <? half then q
              else if half <? r then q + 1
              else if Z.even q then q else q + 1 in
    Z.sgn z * (q' * 2^sh).

(** [a * b] and [a + b] on numbers holding integers. *)
Definition mul (a b : Z) : Z := fl64 (a * b).
Definition add (a b : Z) : Z := fl64 (a + b).

(** [Math.floor] and [>] on draws. *)
Definition floor (q : Q) : Z := Qfloor q.
Definition gt (a b : Q) : bool := negb (Qle_bool a b).

End Js.

(** ** hashString *)

Definition code_unit := Z.
Definition jsstring := list code_unit.

(** The code units of an 8-bit literal. *)
Fixpoint units (s : string) : jsstring :=
  match s with
  | EmptyString => []
  | String c s' => Z.of_N (N_of_ascii c) :: units s'
  end.

(** One iteration of the loop body:
    [hash = ((hash << 5) - hash) + str.charCodeAt(i); hash = hash & hash]. *)
Definition hashStep (hash : Z) (c : code_unit) : Z :=
  let hash := (Js.shl hash 5 - hash) + c in
  Js.band hash hash.

Definition hashString (str : jsstring) : Z :=
  Z.abs (fold_left hashStep str 0).

(** The hash as the specification words it: [h = h*31 + codeUnit] in 32-bit
    wrapping arithmetic, absolute value at the end. *)
Definition wrap32 (x : Z) : Z := (x + 2^31) mod 2^32 - 2^31.

Definition spec_polyStep (h : Z) (c : code_unit) : Z := wrap32 (h * 31 + c).

Definition spec_Hasher (str : jsstring) : Z :=
  Z.abs (fold_left spec_polyStep str 0).

(** ** seededRandom *)

(** The closure returned by [seededRandom] owns one mutable number, [seed]. *)
Definition rng := Z.

Definition seededRandom (seed : Z) : rng := seed.

(** The register update [seed = (seed * 1103515245 + 12345) & 0x7fffffff]. *)
Definition nextSeed (seed : Z) : Z :=
  Js.band (Js.add (Js.mul seed 1103515245) 12345) 0x7fffffff.

(** One call of the closure: the new register and [seed / 0x7fffffff]. *)
Definition rand (st : rng) : Q * rng :=
  let seed := nextSeed st in
  (seed # 2147483647, seed).

(** The register after [n] calls. *)
Fixpoint after (n : nat) (st : rng) : rng :=
  match n with
  | O => st
  | S n' => after n' (snd (rand st))
  end.

(** The register update as the specification words it. *)
Definition spec_nextState (state : Z) : Z :=
  (state * 1103515245 + 12345) mod 2^31.

(** ** Code that draws: a state monad over the register *)

Definition Rand (A : Type) : Type := rng -> A * rng.

Definition ret {A} (a : A) : Rand A := fun st => (a, st).

Definition bind {A B} (m : Rand A) (k : A -> Rand B) : Rand B :=
  fun st => let (a, st') := m st in k a st'.

Declare Scope rand_scope.
Delimit Scope rand_scope with rand.
Notation "x <- m ;; k" := (bind m (fun x => k))
  (at level 61, m at next level, right associativity) : rand_scope.
Local Open Scope rand_scope.

(** [for (let i = 0; i < n; i++) { svg += body(i) }] with [n] and [i] not
    assigned in the body: the pieces appended, in order.  [from] is the
    value of [i] at entry. *)
Fixpoint forFrom {A} (from : Z) (n : nat) (body : Z -> Rand (list A))
  : Rand (list A) :=
  match n with
  | O => ret []
  | S n' =>
      out <- body from ;;
      rest <- forFrom (from + 1) n' body ;;
      ret (out ++ rest)
  end.

(** The number of [i = 0, 1, 2, ...] with [i < bound].  The loop of the model
    ends for every bound; the source's does as long as the string it appends
    to stays within the length the engine allows, which a canvas of some
    tens of thousands of units in the Pixel style exceeds. *)
Definition trips (bound : Q) : nat := Z.to_nat (Qceiling bound).

Definition forLt {A} (bound : Q) (body : Z -> Rand (list A)) : Rand (list A) :=
  forFrom 0 (trips bound) body.

(** [arr[i]] for a number [i] holding an integer; [None] is [undefined]. *)
Definition index {A} (arr : list A) (i : Z) : option A :=
  if i <? 0 then None else nth_error arr (Z.to_nat i).

Definition len {A} (arr : list A) : Z := Z.of_nat (List.length arr).

(** [Math.floor(rand() * n)]. *)
Definition randInt (n : Z) : Rand Z :=
  r <- rand ;; ret (Js.floor (r * inject_Z n)%Q).

(** [arr[Math.floor(rand() * arr.length)]]. *)
Definition choose {A} (arr : list A) : Rand (option A) :=
  i <- randInt (len arr) ;; ret (index arr i).

(** ** The document *)

(** Arithmetic the source performs on draws and never inspects. *)
Inductive num : Type :=
| Lit (q : Q)
| Add (a b : num)
| Sub (a b : num)
| Mul (a b : num)
| Div (a b : num)
| Cos (a : num)
| Sin (a : num)
| PI.

Declare Scope num_scope.
Delimit Scope num_scope with num.
Bind Scope num_scope with num.
Infix "+" := Add : num_scope.
Infix "-" := Sub : num_scope.
Infix "*" := Mul : num_scope.
Infix "/" := Div : num_scope.

Definition int (z : Z) : num := Lit (inject_Z z).

(** The value of an expression without trigonometry, in exact arithmetic:
    what the source computes up to the rounding of binary64.  Where the
    rounding decides a statement, [numValue64] below is used instead. *)
Fixpoint numValue (e : num) : option Q :=
  let lift2 f a b :=
    match numValue a, numValue b with
    | Some x, Some y => Some (f x y)
    | _, _ => None
    end in
  match e with
  | Lit q => Some q
  | Add a b => lift2 Qplus a b
  | Sub a b => lift2 Qminus a b
  | Mul a b => lift2 Qmult a b
  | Div a b => lift2 Qdiv a b
  | Cos _ | Sin _ | PI => None
  end.

(** A colour interpolated into the markup: [None] is [undefined]. *)
Definition colour := option string.

Inductive pathcmd : Type :=
| MoveTo (x y : num)
| LineTo (x y : num)
| QuadTo (x1 y1 x y : num)
| ClosePath.

(** The elements the renderers emit, with the attributes they write. *)
Inductive element : Type :=
| polygon (points : list (num * num)) (fill : colour) (opacity : num)
| rect (x y width height : num) (rx : option num) (fill : colour)
       (opacity : num) (rotate : option (num * num * num))
| circle (cx cy r : num) (fill : colour) (opacity : option num)
| pathFill (d : list pathcmd) (fill : colour) (opacity : num)
| pathStroke (d : list pathcmd) (stroke : colour) (strokeWidth : num)
             (opacity : num)
| text (x y : num) (fontFamily : string) (fontSize : num) (fill : colour)
       (opacity : num).

Definition elementColour (e : element) : colour :=
  match e with
  | polygon _ c _ => c
  | rect _ _ _ _ _ c _ _ => c
  | circle _ _ _ c _ => c
  | pathFill _ c _ => c
  | pathStroke _ c _ _ => c
  | text _ _ _ _ c _ => c
  end.

Record gradientStop : Type := mkStop {
  stopOffset : Q;        (* percent *)
  stopColor : colour;
  stopOpacity : Q
}.

(** The [<svg>] document: view box [0 0 size size], the gradient [bg] with
    its two stops, the full-canvas rectangle filled with it, the elements. *)
Record document : Type := mkDocument {
  viewBox : Z * Z * Z * Z;
  gradient : gradientStop * gradientStop;
  background : Z * Z;    (* width and height of the rectangle *)
  elements : list element
}.

(** What a call does: return, or throw (the only throw the functions can
    reach is the [TypeError] of reading a property of [undefined]). *)
Inductive outcome (A : Type) : Type :=
| Returns (a : A)
| Throws (e : string).
Arguments Returns {A} a.
Arguments Throws {A} e.

Definition raises {A} (o : outcome A) : Prop :=
  match o with Returns _ => False | Throws _ => True end.

(** ** Constant tables *)

Definition PALETTES : list (list string) := [
  ["#FF6B6B"; "#4ECDC4"; "#45B7D1"; "#96CEB4"; "#FFEAA7"];
  ["#2C3E50"; "#E74C3C"; "#ECF0F1"; "#3498DB"; "#F39C12"];
  ["#5c73f2"; "#00d9ff"; "#ff6b35"; "#f7931a"; "#9b59b6"];
  ["#1a1a2e"; "#16213e"; "#0f3460"; "#e94560"; "#533483"];
  ["#00b894"; "#00cec9"; "#0984e3"; "#6c5ce7"; "#fd79a8"]
]%string.

Record styleInfo : Type := mkStyle { name : string; description : string }.

(** The own properties of the object literal [STYLES], in order. *)
Definition STYLES : list (string * styleInfo) := [
  ("geometric", mkStyle "Geometric" "Sharp angles and bold shapes");
  ("organic", mkStyle "Organic" "Flowing curves and natural forms");
  ("pixel", mkStyle "Pixel" "Retro 8-bit aesthetic");
  ("circuit", mkStyle "Circuit" "Digital circuitry patterns");
  ("stacks", mkStyle "Stacks" "Stacks ecosystem themed");
  ("faces", mkStyle "Bitcoin Faces" "Unique faces from bitcoinfaces.xyz")
]%string.

(** ** The renderers *)

Section Renderers.

Variable palette : list string.
Variable size : Z.

(** [rand() * size] *)
Definition scaled (r : Q) : num := (Lit r * int size)%num.

(** The body of the loop of [generateGeometric]. *)
Definition geometricShape (i : Z) : Rand (list element) :=
  color <- choose palette ;;
  o <- rand ;;
  let opacity := (Lit 0.3 + Lit o * Lit 0.5)%num in
  rx <- rand ;;
  let x := scaled rx in
  ry <- rand ;;
  let y := scaled ry in
  t <- rand ;;
  if Js.gt t 0.5 then
    (* Triangle *)
    (rs <- rand ;;
     let s := (Lit 30 + Lit rs * Lit 80)%num in
     ret [polygon [(x, y - s); (x - s, y + s); (x + s, y + s)]%num
            color opacity])
  else
    (t' <- rand ;;
     if Js.gt t' 0.5 then
       (* Rectangle *)
       (rw <- rand ;;
        let w := (Lit 30 + Lit rw * Lit 100)%num in
        rh <- rand ;;
        let h := (Lit 30 + Lit rh * Lit 100)%num in
        ra <- rand ;;
        let angle := (Lit ra * Lit 360)%num in
        ret [rect x y w h None color opacity
               (Some (angle, x + w / Lit 2, y + h / Lit 2)%num)])
     else
       (* Circle *)
       (rr <- rand ;;
        let r := (Lit 20 + Lit rr * Lit 60)%num in
        ret [circle x y r color (Some opacity)])).

Definition generateGeometric : Rand (list element) :=
  n <- randInt 12 ;;
  let shapes := 8 + n in
  forLt (inject_Z shapes) geometricShape.

(** The boundary points of one blob: the inner loop over [j < numPoints]. *)
Definition blobPoint (cx cy r : num) (j : Z) : Rand (list (num * num)) :=
  let numPoints := 6 in
  let angle := (int j / int numPoints * PI * Lit 2)%num in
  rv <- rand ;;
  let variation := (Lit 0.7 + Lit rv * Lit 0.6)%num in
  let px := (cx + Cos angle * r * variation)%num in
  let py := (cy + Sin angle * r * variation)%num in
  ret [(px, py)].

(** [points[j]]; the array has [numPoints] entries and every index the
    source reads is below that, the default is never returned. *)
Definition pointAt (points : list (num * num)) (j : Z) : num * num :=
  nth (Z.to_nat j) points (int 0, int 0).

(** The second inner loop: one quadratic segment per boundary point. *)
Definition blobSegment (points : list (num * num)) (j : nat) : pathcmd :=
  let p1 := pointAt points (Z.of_nat j) in
  let p2 := pointAt points ((Z.of_nat j + 1) mod len points) in
  let mx := ((fst p1 + fst p2) / Lit 2)%num in
  let my := ((snd p1 + snd p2) / Lit 2)%num in
  QuadTo (fst p1) (snd p1) mx my.

Definition organicBlob (i : Z) : Rand (list element) :=
  color <- choose palette ;;
  o <- rand ;;
  let opacity := (Lit 0.4 + Lit o * Lit 0.4)%num in
  rcx <- rand ;;
  let cx := scaled rcx in
  rcy <- rand ;;
  let cy := scaled rcy in
  rr <- rand ;;
  let r := (Lit 40 + Lit rr * Lit 100)%num in
  points <- forLt 6 (blobPoint cx cy r) ;;
  let p0 := pointAt points 0 in
  let path := [MoveTo (fst p0) (snd p0)]
              ++ map (blobSegment points) (seq 0 (List.length points))
              ++ [ClosePath] in
  ret [pathFill path color opacity].

Definition generateOrganic : Rand (list element) :=
  n <- randInt 8 ;;
  let blobs := 5 + n in
  forLt (inject_Z blobs) organicBlob.

(** The body of the two nested loops of [generatePixel]. *)
Definition pixelCell (x y : Z) : Rand (list element) :=
  let pixelSize := 20 in
  gate <- rand ;;
  if Js.gt gate 0.4 then
    (color <- choose palette ;;
     o <- rand ;;
     let opacity := (Lit 0.6 + Lit o * Lit 0.4)%num in
     ret [rect (int (x * pixelSize)) (int (y * pixelSize))
            (int pixelSize) (int pixelSize) None color opacity None])
  else ret [].

(** The loop nest of [generatePixel], for any cell body:
    [grid = size / pixelSize], [x] outside and [y] inside, both against
    [grid]. *)
Definition pixelLoops {A} (body : Z -> Z -> Rand (list A)) : Rand (list A) :=
  let pixelSize := 20 in
  let grid := (inject_Z size / inject_Z pixelSize)%Q in
  forLt grid (fun x => forLt grid (fun y => body x y)).

Definition generatePixel : Rand (list element) := pixelLoops pixelCell.

(** The segments of one trace: the inner loop of [generateCircuit], which
    moves [x] or [y] and extends the path. *)
Fixpoint circuitSegments (n : nat) (x y : num) (path : list pathcmd)
  : Rand (num * num * list pathcmd) :=
  match n with
  | O => ret (x, y, path)
  | S n' =>
      dir <- randInt 4 ;;
      rl <- rand ;;
      let l := (Lit 30 + Lit rl * Lit 80)%num in
      let '(x, y) :=
        match dir with
        | 0 => ((x + l)%num, y)
        | 1 => ((x - l)%num, y)
        | 2 => (x, (y + l)%num)
        | 3 => (x, (y - l)%num)
        | _ => (x, y)
        end in
      circuitSegments n' x y (path ++ [LineTo x y])
  end.

Definition circuitTrace (i : Z) : Rand (list element) :=
  color <- choose palette ;;
  rx <- rand ;;
  let x := scaled rx in
  ry <- rand ;;
  let y := scaled ry in
  let path := [MoveTo x y] in
  n <- randInt 5 ;;
  let segments := 3 + n in
  end_ <- circuitSegments (trips (inject_Z segments)) x y path ;;
  let '(x, y, path) := end_ in
  ret [pathStroke path color (Lit 3) (Lit 0.8);
       circle x y (Lit 6) color None].

Definition circuitNode (i : Z) : Rand (list element) :=
  color <- choose palette ;;
  rx <- rand ;;
  let x := scaled rx in
  ry <- rand ;;
  let y := scaled ry in
  rr <- rand ;;
  ret [circle x y (Lit 4 + Lit rr * Lit 8)%num color (Some (Lit 0.9))].

Definition generateCircuit : Rand (list element) :=
  n <- randInt 20 ;;
  let lines := 15 + n in
  traces <- forLt (inject_Z lines) circuitTrace ;;
  nodes <- forLt 10 circuitNode ;;
  ret (traces ++ nodes).

(** [generateStacks] ignores its [palette] argument. *)
Definition stacksPalette : list string :=
  ["#5c73f2"; "#00d9ff"; "#f7931a"; "#ffffff"; "#1a1a2e"]%string.

Definition stacksLayer (i : Z) : Rand (list element) :=
  let color := index stacksPalette (i mod len stacksPalette) in
  let layerY := 50 + i * 70 in
  rw <- rand ;;
  let width := (Lit 200 + Lit rw * Lit 100)%num in
  rh <- rand ;;
  let height := (Lit 40 + Lit rh * Lit 20)%num in
  rx <- rand ;;
  let x := ((int size - width) / Lit 2 + (Lit rx - Lit 0.5) * Lit 40)%num in
  ret [rect x (int layerY) width height (Some (Lit 8)) color
         (Lit 0.7 - int i * Lit 0.1)%num None].

Definition stacksParticle (i : Z) : Rand (list element) :=
  color <- choose stacksPalette ;;
  rx <- rand ;;
  let x := scaled rx in
  ry <- rand ;;
  let y := scaled ry in
  rr <- rand ;;
  let r := (Lit 2 + Lit rr * Lit 6)%num in
  ro <- rand ;;
  ret [circle x y r color (Some (Lit 0.3 + Lit ro * Lit 0.5)%num)].

Definition generateStacks : Rand (list element) :=
  rb <- rand ;;
  let btcSize := (Lit 60 + Lit rb * Lit 40)%num in
  let cx := (int size / Lit 2)%num in
  let cy := (int size / Lit 2)%num in
  layers <- forLt 5 stacksLayer ;;
  (* the glyph and its anchor are constants of the template *)
  let glyph := text cx (cy + Lit 20)%num "Arial Black" btcSize
                 (Some "#f7931a"%string) (Lit 0.9) in
  particles <- forLt 20 stacksParticle ;;
  ret (layers ++ [glyph] ++ particles).

End Renderers.

(** ** generateArt *)

(** The [switch (style)]. *)
Definition renderStyle (style : string) (palette : list string) (size : Z)
  : Rand (list element) :=
  (if style =? "geometric" then generateGeometric palette size
   else if style =? "organic" then generateOrganic palette size
   else if style =? "pixel" then generatePixel palette size
   else if style =? "circuit" then generateCircuit palette size
   else if style =? "stacks" then generateStacks size
   else (* default *) generateGeometric palette size)%string.

Definition generateArt (seed : jsstring) (style : string) (size : Z)
  : outcome document :=
  let hash := hashString seed in
  let st := seededRandom hash in
  let (palette_, st) := choose PALETTES st in
  match palette_ with
  | None =>
      (* [palette.length] with [palette] undefined *)
      Throws "TypeError"
  | Some palette =>
      let (bgColor, st) := choose palette st in
      let (elements, _) := renderStyle style palette size st in
      Returns {|
        viewBox := (0, 0, size, size);
        gradient := (mkStop 0 (index palette 0) 0.8,
                     mkStop 100 (index palette 1) 0.8);
        background := (size, size);
        elements := elements
      |}
  end.

(** [size] defaults to 400; every caller in the file uses the default. *)
Definition generateArtDefault (seed : jsstring) (style : string)
  : outcome document := generateArt seed style 400.

(** ** generateTraits *)

(** What [STYLES[key]] can evaluate to.  [STYLES] is an object literal, so a
    key it does not own is looked up in [Object.prototype]. *)
Inductive property : Type :=
| Own (info : styleInfo)
| BuiltinFunction (fname : string)   (* a function; [.name] is its name *)
| PrototypeObject.                   (* [Object.prototype]; it has no [name] *)

(** The properties of [Object.prototype]. *)
Definition ObjectPrototype : list (string * property) := [
  ("constructor", BuiltinFunction "Object");
  ("__defineGetter__", BuiltinFunction "__defineGetter__");
  ("__defineSetter__", BuiltinFunction "__defineSetter__");
  ("hasOwnProperty", BuiltinFunction "hasOwnProperty");
  ("__lookupGetter__", BuiltinFunction "__lookupGetter__");
  ("__lookupSetter__", BuiltinFunction "__lookupSetter__");
  ("isPrototypeOf", BuiltinFunction "isPrototypeOf");
  ("propertyIsEnumerable", BuiltinFunction "propertyIsEnumerable");
  ("toString", BuiltinFunction "toString");
  ("valueOf", BuiltinFunction "valueOf");
  ("__proto__", PrototypeObject);
  ("toLocaleString", BuiltinFunction "toLocaleString")
]%string.

Fixpoint assoc {A} (key : string) (l : list (string * A)) : option A :=
  match l with
  | [] => None
  | (k, v) :: l' => if (k =? key)%string then Some v else assoc key l'
  end.

(** [STYLES[key]] *)
Definition getStyle (key : string) : option property :=
  match assoc key STYLES with
  | Some info => Some (Own info)
  | None => assoc key ObjectPrototype
  end.

(** [p?.name] *)
Definition nameOf (p : option property) : option string :=
  match p with
  | Some (Own info) => Some (name info)
  | Some (BuiltinFunction fname) => Some fname
  | Some PrototypeObject => None
  | None => None
  end.

(** [a || b] for [a] a string or [undefined]. *)
Definition orElse (a : option string) (b : string) : string :=
  match a with
  | Some s => if (s =? "")%string then b else s
  | None => b
  end.

Record trait : Type := mkTrait {
  trait_type : string;
  value : option string        (* [None] is [undefined] *)
}.

Definition rarities : list string :=
  ["Common"; "Uncommon"; "Rare"; "Epic"; "Legendary"]%string.
Definition backgrounds : list string :=
  ["Sunset"; "Midnight"; "Ocean"; "Forest"; "Cosmic"]%string.
Definition moods : list string :=
  ["Calm"; "Energetic"; "Mysterious"; "Playful"; "Bold"]%string.

Definition generateTraits (seed : jsstring) (style : string) : list trait :=
  let hash := hashString seed in
  let st := seededRandom hash in
  let styleName := orElse (nameOf (getStyle style)) style in
  let (rarity, st) := choose rarities st in
  let (background_, st) := choose backgrounds st in
  let (mood, st) := choose moods st in
  [ mkTrait "Style" (Some styleName);
    mkTrait "Rarity" rarity;
    mkTrait "Background" background_;
    mkTrait "Mood" mood;
    mkTrait "Generation" (Some "Genesis"%string) ].

(** ** Notions used in the statements *)

(** The identifiers the [switch] of [generateArt] has a case for. *)
Definition recognized : list string :=
  ["geometric"; "organic"; "pixel"; "circuit"; "stacks"]%string.

(** The keys of the style catalog. *)
Definition catalogKeys : list string := map fst STYLES.

(** The register when [generateArt] or [generateTraits] starts drawing. *)
Definition start (seed : jsstring) : rng := seededRandom (hashString seed).

(** The palette [generateArt] selects with its first draw. *)
Definition drawnPalette (seed : jsstring) : option (list string) :=
  fst (choose PALETTES (start seed)).

(** The background colour [generateArt] selects with its second draw. *)
Definition drawnBgColor (seed : jsstring) (palette : list string) : colour :=
  fst (choose palette (after 1 (start seed))).

(** The cells the loop nest of [generatePixel] visits, in the order it
    visits them: the nest run on a body that only reports its [(x, y)]. *)
Definition pixelCells (size : Z) : list (Z * Z) :=
  fst (pixelLoops size (fun x y => ret [(x, y)]) 0).

(** [0, 1, ..., n-1] *)
Definition upto (n : nat) : list Z := map Z.of_nat (seq 0 n).

(** The cells of an [n] by [n] grid, [x] outside and [y] inside:
    (0,0), (0,1), ..., (0,n-1), (1,0), ... *)
Definition gridCells (n : nat) : list (Z * Z) :=
  flat_map (fun x => map (fun y => (x, y)) (upto n)) (upto n).

(** A body run over a list of arguments, its outputs appended. *)
Fixpoint forEach {A B} (l : list A) (body : A -> Rand (list B))
  : Rand (list B) :=
  match l with
  | [] => ret []
  | a :: l' =>
      out <- body a ;;
      rest <- forEach l' body ;;
      ret (out ++ rest)
  end.

(** No element carries [undefined] as its colour. *)
Definition coloursDefined (els : list element) : Prop :=
  Forall (fun e => elementColour e <> None) els.

(** A computation that, started on a non-negative register, returns a value
    satisfying [P] and leaves a non-negative register. *)
Definition yields {A} (m : Rand A) (P : A -> Prop) : Prop :=
  forall st, 0 <= st -> P (fst (m st)) /\ 0 <= snd (m st).

(** ** Notions used in the further properties *)

(** The [opacity] attribute an element is written with, if it has one. *)
Definition elementOpacity (e : element) : option num :=
  match e with
  | polygon _ _ o => Some o
  | rect _ _ _ _ _ _ o _ => Some o
  | circle _ _ _ _ o => o
  | pathFill _ _ o => Some o
  | pathStroke _ _ _ o => Some o
  | text _ _ _ _ _ o => Some o
  end.

(** The colour of the element is an entry of [pal]. *)
Definition colourFrom (pal : list string) (e : element) : Prop :=
  exists c, elementColour e = Some c /\ In c pal.

Inductive tag : Type := Tpolygon | Trect | Tcircle | Tpath | Ttext.

Definition elementTag (e : element) : tag :=
  match e with
  | polygon _ _ _ => Tpolygon
  | rect _ _ _ _ _ _ _ _ => Trect
  | circle _ _ _ _ _ => Tcircle
  | pathFill _ _ _ | pathStroke _ _ _ _ => Tpath
  | text _ _ _ _ _ _ => Ttext
  end.

(** What an element is and how it is coloured, without its geometry. *)
Definition skeleton (e : element) : tag * colour :=
  (elementTag e, elementColour e).

(** Two computations that write the same skeletons and leave the same
    register, from every register. *)
Definition sameComposition (m m' : Rand (list element)) : Prop :=
  forall st, map skeleton (fst (m st)) = map skeleton (fst (m' st)) /\
             snd (m st) = snd (m' st).

(** A length the Circuit renderer steps by: a value in [[30, 110)]. *)
Definition stepLength (l : num) : Prop :=
  exists v, numValue l = Some v /\ (30 <= v /\ v < 110)%Q.

(** One segment of a trace: from a point, a step along one axis. *)
Inductive axisStep : num * num -> num * num -> Prop :=
| stepRight x y l : stepLength l -> axisStep (x, y) ((x + l)%num, y)
| stepLeft x y l : stepLength l -> axisStep (x, y) ((x - l)%num, y)
| stepDown x y l : stepLength l -> axisStep (x, y) (x, (y + l)%num)
| stepUp x y l : stepLength l -> axisStep (x, y) (x, (y - l)%num).

(** Line commands that lead from a point to a point by such steps. *)
Inductive polyline : num * num -> list pathcmd -> num * num -> Prop :=
| polylineEnd p : polyline p [] p
| polylineStep p q rest e :
    axisStep p q -> polyline q rest e ->
    polyline p (LineTo (fst q) (snd q) :: rest) e.

(** [l1] is [l2] with some entries left out, the others in their order. *)
Inductive subseq {A : Type} : list A -> list A -> Prop :=
| subseq_nil : subseq [] []
| subseq_skip a l1 l2 : subseq l1 l2 -> subseq l1 (a :: l2)
| subseq_take a l1 l2 : subseq l1 l2 -> subseq (a :: l1) (a :: l2).

(** *** Attribute values as binary64 computes them *)

(** The binade of a positive rational: the [e] with [2^e <= x < 2^(e+1)]. *)
Definition binade (x : Q) : Z :=
  let e0 := (Z.log2 (Qnum x) - Z.log2 (Z.pos (Qden x)))%Z in
  if Qle_bool (2 ^ e0) x then e0 else (e0 - 1)%Z.

(** The nearest integer, the even one of two that are equally near. *)
Definition roundHalfEven (m : Q) : Z :=
  let f := Qfloor m in
  match (m - inject_Z f ?= 1 # 2)%Q with
  | Lt => f
  | Gt => (f + 1)%Z
  | Eq => if Z.even f then f else (f + 1)%Z
  end.

(** Rounding of a positive rational to 53 significant bits. *)
Definition round53 (x : Q) : Q :=
  let u := (2 ^ (binade x - 52))%Q in
  (inject_Z (roundHalfEven (x / u)) * u)%Q.

(** Rounding to binary64, round-to-nearest, ties-to-even.  (No value the
    renderers compute comes near the ends of the exponent range.) *)
Definition b64 (x : Q) : Q :=
  match Qnum x with
  | 0%Z => 0%Q
  | Z.pos _ => round53 x
  | Z.neg _ => (- round53 (- x))%Q
  end.

(** The value of an expression without trigonometry as the source computes
    it: every literal, every draw and every result rounded to binary64.  (A
    constant the template writes as text, such as [opacity="0.9"], is taken
    as the binary64 a reader of the document parses it to.) *)
Fixpoint numValue64 (e : num) : option Q :=
  let lift2 f a b :=
    match numValue64 a, numValue64 b with
    | Some x, Some y => Some (b64 (f x y))
    | _, _ => None
    end in
  match e with
  | Lit q => Some (b64 q)
  | Add a b => lift2 Qplus a b
  | Sub a b => lift2 Qminus a b
  | Mul a b => lift2 Qmult a b
  | Div a b =>
      match numValue64 b with
      | Some y => if Qeq_bool y 0 then None else lift2 Qdiv a b
      | None => None
      end
  | Cos _ | Sin _ | PI => None
  end.

(** The opacity of the element, when written, is a binary64 value in
    [[lo, hi)]. *)
Definition opacityWithin64 (lo hi : Q) (e : element) : Prop :=
  match elementOpacity e with
  | None => True
  | Some o => exists v, numValue64 o = Some v /\ (lo <= v /\ v < hi)%Q
  end.

(** [0.7 - 4 * 0.1] in binary64: 0.29999999999999993..., a little below
    0.3. *)
Definition leastOpacity : Q := 5404319552844594 # 18014398509481984.

(** The opacity of the element is written and is the binary64 value [v]. *)
Definition opacityIs (v : Q) (e : element) : Prop :=
  exists o, elementOpacity e = Some o /\ numValue64 o = Some v.

(** An element coloured from [pal] and, if it has an opacity, with one in
    [[leastOpacity, 1)]. *)
Definition painted (pal : list string) (e : element) : Prop :=
  colourFrom pal e /\ opacityWithin64 leastOpacity 1 e.

(** A computation that calls [rand] exactly [k] times, whatever it draws. *)
Definition consumes {A} (m : Rand A) (k : nat) : Prop :=
  forall st, snd (m st) = after k st.

(** The element [generatePixel] writes for the cell [(x, y)]. *)
Definition cellRect (c : Z * Z) (fill : colour) (opacity : num) : element :=
  rect (int (fst c * 20)) (int (snd c * 20)) (int 20) (int 20) None
       fill opacity None.

(** ** The routes that call the engine *)

(** The handlers are asynchronous and talk to a key-value store, to the
    clock and to other services.  What is modelled is what each handler
    decides from its inputs: the response it sends back, or the point from
    which it goes on to store and to call out.  A value read from the store
    is an argument. *)

(** [STYLES[key]] is an object or a function when it is found, and so
    truthy. *)
Definition styleFound (key : string) : bool :=
  match getStyle key with Some _ => true | None => false end.

(** [Object.keys(STYLES)] *)
Definition styleKeys : list string := map fst STYLES.

(** *** GET /preview/:style/:seed *)

Inductive previewResponse : Type :=
| PreviewInvalidStyle (status : Z) (available : list string)
| PreviewFace (status : Z) (seed : jsstring)   (* body: fetchBitcoinFace(seed) *)
| PreviewArt (status : Z) (svg : outcome document).

Definition preview (style : string) (seed : jsstring) : previewResponse :=
  if negb (styleFound style) then PreviewInvalidStyle 400 styleKeys
  else if (style =? "faces")%string then PreviewFace 200 seed
  else PreviewArt 200 (generateArtDefault seed style).

(** *** POST /forge *)

(** A member of the JSON body, as far as the handler looks at it: absent, a
    string, or any other value, of which only the truthiness and the
    property key it converts to are observed. *)
Inductive jsvalue : Type :=
| Undefined
| Str (s : string)
| Other (truthy : bool) (key : string).

(** [!!v] *)
Definition truthy (v : jsvalue) : bool :=
  match v with
  | Undefined => false
  | Str s => negb (s =? "")%string
  | Other t _ => t
  end.

(** [typeof v === "string"] *)
Definition isString (v : jsvalue) : bool :=
  match v with Str _ => true | _ => false end.

(** The key [v] turns into in [STYLES[v]]. *)
Definition propertyKey (v : jsvalue) : string :=
  match v with
  | Undefined => "undefined"
  | Str s => s
  | Other _ k => k
  end.

(** The member [recipients]: an array, whose items are strings or not
    ([None]), or anything else. *)
Inductive jsrecipients : Type :=
| NotArray (truthy : bool)
| Array (items : list (option string)).

(** What [c.req.json()] gives: a failure, [null], or a value whose members
    can be read (a value that is no object has none). *)
Inductive jsbody : Type :=
| BodyInvalid
| BodyNull
| BodyMembers (name description style : jsvalue) (recipients : jsrecipients).

Inductive forgeResponse : Type :=
| ForgeError (status : Z) (error : string)
| ForgePaymentRequired (status : Z) (totalCost sats : Z) (recipients : Z)
| ForgePaid (name : string) (description style : jsvalue)
            (recipients : list string) (paymentTx : string) (totalCost : Z)
    (* the handler goes on to create the collection *)
| ForgeThrows (e : string).

(** The loop over the addresses; [addr.startsWith] exists on strings only. *)
Fixpoint checkAddresses (items : list (option string))
  : forgeResponse + list string :=
  match items with
  | [] => inr []
  | None :: _ => inl (ForgeThrows "TypeError")
  | Some addr :: rest =>
      if negb (String.prefix "SP" addr) && negb (String.prefix "ST" addr)
      then inl (ForgeError 400 ("Invalid address: " ++ addr))
      else match checkAddresses rest with
           | inl r => inl r
           | inr ok => inr (addr :: ok)
           end
  end.

(** An address the loop lets through. *)
Definition stacksAddress (addr : string) : Prop :=
  String.prefix "SP" addr = true \/ String.prefix "ST" addr = true.

Definition baseFee : Z := 10000.
Definition perNft : Z := 1000.

(** [baseFee + (recipients.length * perNft)] *)
Definition totalCost (n : Z) : Z := baseFee + n * perNft.

(** [Math.ceil(totalCost / 100)] *)
Definition satsCost (n : Z) : Z := Qceiling (inject_Z (totalCost n) / 100).

Definition forge (paymentTx : option string) (body : jsbody) : forgeResponse :=
  match body with
  | BodyInvalid => ForgeError 400 "Invalid JSON body"
  | BodyNull =>
      (* destructuring [null] *)
      ForgeThrows "TypeError"
  | BodyMembers name description style recipients =>
      if negb (truthy name) || negb (isString name) then
        ForgeError 400 "name is required"
      else if negb (truthy style) || negb (styleFound (propertyKey style)) then
        ForgeError 400 "Invalid style"
      else
        match recipients with
        | NotArray _ => ForgeError 400 "recipients array required (min 1)"
        | Array items =>
            if len items <? 1 then
              ForgeError 400 "recipients array required (min 1)"
            else if 10000 <? len items then
              ForgeError 400 "Maximum 10000 recipients"
            else
              match checkAddresses items with
              | inl r => r
              | inr addresses =>
                  match paymentTx with
                  | Some tx =>
                      if (tx =? "")%string then
                        ForgePaymentRequired 402 (totalCost (len items))
                          (satsCost (len items)) (len items)
                      else
                        ForgePaid (propertyKey name) description style
                          addresses tx (totalCost (len items))
                  | None =>
                      ForgePaymentRequired 402 (totalCost (len items))
                        (satsCost (len items)) (len items)
                  end
              end
        end
  end.

(** *** GET /metadata/:collectionId/:tokenId and GET /image/... *)

(** The stored collection, with the members the two handlers read; the
    interface [Collection] gives their types. *)
Record Collection : Type := mkCollection {
  collectionStyle : string;
  collectionSupply : Z;
  collectionRecipients : list string
}.

(** [`${collectionId}-${tokenId}`] *)
Definition tokenSeed (collectionId tokenId : jsstring) : jsstring :=
  collectionId ++ units "-" ++ tokenId.

Inductive metadataResponse : Type :=
| MetadataNotFound (status : Z)
| MetadataInvalidToken (status : Z)
| Metadata (token_id : Z) (style : string) (attributes : list trait).

Inductive imageResponse : Type :=
| ImageNotFound (status : Z)
| ImageFace (status : Z) (address : string)  (* body: fetchBitcoinFace(address) *)
| ImageArt (status : Z) (svg : outcome document).

Section TokenRoutes.

(** [parseInt(tokenId)]; [None] is [NaN]. *)
Variable parseInt : jsstring -> option Z.

(** [stored] is what [CACHE.get] and [JSON.parse] give, [None] when the
    key holds nothing. *)
Definition metadata (stored : option Collection)
           (collectionId tokenId : jsstring) : metadataResponse :=
  match stored with
  | None => MetadataNotFound 404
  | Some collection =>
      match parseInt tokenId with
      | None => MetadataInvalidToken 400
      | Some tokenNum =>
          if (tokenNum <? 1) || (collectionSupply collection <? tokenNum)
          then MetadataInvalidToken 400
          else
            let seed := tokenSeed collectionId tokenId in
            Metadata tokenNum (collectionStyle collection)
              (generateTraits seed (collectionStyle collection))
      end
  end.

(** [collection.recipients[tokenNum - 1]], when it is a non-empty string. *)
Definition recipientOf (collection : Collection) (tokenNum : option Z)
  : option string :=
  match tokenNum with
  | None => None
  | Some n =>
      match index (collectionRecipients collection) (n - 1) with
      | Some address => if (address =? "")%string then None else Some address
      | None => None
      end
  end.

Definition image (stored : option Collection)
           (collectionId tokenId : jsstring) : imageResponse :=
  match stored with
  | None => ImageNotFound 404
  | Some collection =>
      let tokenNum := parseInt tokenId in
      let art :=
        ImageArt 200 (generateArtDefault (tokenSeed collectionId tokenId)
                        (collectionStyle collection)) in
      if (collectionStyle collection =? "faces")%string then
        match recipientOf collection tokenNum with
        | Some recipientAddress => ImageFace 200 recipientAddress
        | None => art
        end
      else art
  end.

End TokenRoutes.

(** * Properties *)

(** ** Bit operations *)

Lemma toInt32_range (x : Z) : - 2^31 <= Js.toInt32 x < 2^31.
Proof. unfold Js.toInt32. Z.to_euclidean_division_equations. lia. Qed.

Lemma toInt32_small (x : Z) : - 2^31 <= x < 2^31 -> Js.toInt32 x = x.
Proof. unfold Js.toInt32. intros H. Z.to_euclidean_division_equations. lia. Qed.

Lemma band_diag (x : Z) : Js.band x x = Js.toInt32 x.
Proof. unfold Js.band. apply Z.land_diag. Qed.

Lemma band_mask31 (x : Z) : Js.band x 0x7fffffff = x mod 2^31.
Proof.
  unfold Js.band.
  rewrite (toInt32_small 0x7fffffff) by lia.
  change 0x7fffffff with (Z.ones 31).
  rewrite Z.land_ones by lia.
  unfold Js.toInt32. Z.to_euclidean_division_equations. lia.
Qed.

Lemma shl_5 (h : Z) : Js.shl h 5 = Js.toInt32 (Js.toInt32 h * 32).
Proof.
  unfold Js.shl. change (5 mod 32) with 5.
  rewrite Z.shiftl_mul_pow2 by lia. reflexivity.
Qed.

(** ** hashString *)

Lemma hashStep_polyStep (h : Z) (c : code_unit) :
  hashStep h c = spec_polyStep h c.
Proof.
  unfold hashStep, spec_polyStep, wrap32.
  rewrite band_diag, shl_5. unfold Js.toInt32.
  Z.to_euclidean_division_equations. lia.
Qed.

Lemma fold_hashStep (str : jsstring) (h : Z) :
  fold_left hashStep str h = fold_left spec_polyStep str h.
Proof.
  revert h. induction str as [|c str IH]; intros h; simpl.
  - reflexivity.
  - rewrite hashStep_polyStep. apply IH.
Qed.

Lemma hashString_nonneg (str : jsstring) : 0 <= hashString str.
Proof. unfold hashString. apply Z.abs_nonneg. Qed.

(** ** Rounding to binary64 *)

Lemma fl64_exact (z : Z) : Z.abs z < 2^53 -> Js.fl64 z = z.
Proof.
  intros H. unfold Js.fl64.
  destruct (Z.ltb_spec (Z.abs z) (2^53)); [reflexivity | lia].
Qed.

(** Beyond 2^53 the result is a multiple of a power of two. *)
Lemma fl64_shape (z : Z) :
  2^53 <= z ->
  exists q sh, 1 <= sh /\ 2^52 <= q /\ Js.fl64 z = q * 2^sh.
Proof.
  intros H. unfold Js.fl64.
  assert (Hz : Z.abs z = z) by lia. rewrite Hz.
  destruct (Z.ltb_spec z (2^53)); [lia |].
  assert (Hlog : 53 <= Z.log2 z).
  { change 53 with (Z.log2 (2^53)). apply Z.log2_le_mono. lia. }
  set (sh := Z.log2 z - 52).
  assert (Hsh : 1 <= sh) by (unfold sh; lia).
  assert (Hpow : 0 < 2^sh) by (apply Z.pow_pos_nonneg; lia).
  assert (Hq : 2^52 <= z / 2^sh).
  { apply Z.div_le_lower_bound; [lia |].
    rewrite <- Z.pow_add_r by lia.
    replace (sh + 52) with (Z.log2 z) by (unfold sh; lia).
    apply Z.log2_spec. lia. }
  rewrite (Z.sgn_pos z) by lia. rewrite Z.mul_1_l.
  eexists _, sh. split; [exact Hsh |]. split; [| reflexivity].
  destruct (_ <? _); [exact Hq |].
  destruct (_ <? _); [lia |].
  destruct (Z.even _); lia.
Qed.

Lemma fl64_large (z : Z) : 2^53 <= z -> 2^53 <= Js.fl64 z.
Proof.
  intros H. destruct (fl64_shape z H) as (q & sh & Hsh & Hq & ->).
  assert (2^1 <= 2^sh) by (apply Z.pow_le_mono_r; lia).
  change (2^53) with (2^52 * 2^1). apply Z.mul_le_mono_nonneg; lia.
Qed.

Lemma fl64_even (z : Z) : 2^53 <= z -> exists k, Js.fl64 z = 2 * k.
Proof.
  intros H. destruct (fl64_shape z H) as (q & sh & Hsh & Hq & ->).
  exists (q * 2^(sh - 1)).
  replace sh with (1 + (sh - 1)) at 1 by lia.
  rewrite Z.pow_add_r by lia. change (2^1) with 2. ring.
Qed.

(** ** The register *)

Lemma nextSeed_mod (s : Z) :
  nextSeed s = Js.fl64 (Js.fl64 (s * 1103515245) + 12345) mod 2^31.
Proof. unfold nextSeed, Js.add, Js.mul. apply band_mask31. Qed.

Lemma nextSeed_range (s : Z) : 0 <= nextSeed s < 2^31.
Proof. rewrite nextSeed_mod. apply Z.mod_pos_bound. lia. Qed.

Lemma nextSeed_exact (s : Z) :
  0 <= s -> s * 1103515245 + 12345 < 2^53 ->
  nextSeed s = spec_nextState s.
Proof.
  intros H0 H. rewrite nextSeed_mod. unfold spec_nextState.
  rewrite (fl64_exact (s * 1103515245)) by lia.
  rewrite fl64_exact by lia. reflexivity.
Qed.

(** The one register value that would make a draw equal to 1 has a single
    predecessor modulo 2^31 under the exact recurrence, 230538014; the
    product there is beyond 2^53, where the rounded sum is even. *)
Lemma nextSeed_below_max (s : Z) : 0 <= s -> nextSeed s < 0x7fffffff.
Proof.
  intros H0.
  assert (Hr := nextSeed_range s).
  assert (Hne : nextSeed s <> 2^31 - 1); [| lia].
  destruct (Z.lt_ge_cases (s * 1103515245 + 12345) (2^53)) as [Hlt | Hge].
  - rewrite nextSeed_exact by assumption. unfold spec_nextState.
    intros Heq.
    assert (Hdiv : s * 1103515245 + 12345
                   = 2^31 * ((s * 1103515245 + 12345) / 2^31) + (2^31 - 1)).
    { rewrite <- Heq. apply Z.div_mod. lia. }
    set (q := (s * 1103515245 + 12345) / 2^31) in Hdiv.
    (* multiply by the inverse of 1103515245 modulo 2^31 *)
    assert (Hinv : 1103515245 * 1857678181 = 1 + 2^31 * 954594553)
      by reflexivity.
    assert (Hs : s = 2^31 * (1857678181 * (q + 1) - 954594553 * s)
                     - 1857678181 * 12346) by lia.
    lia.
  - rewrite nextSeed_mod. intros Heq.
    assert (Hsum : 2^53 <= Js.fl64 (s * 1103515245) + 12345).
    { destruct (Z.lt_ge_cases (s * 1103515245) (2^53)).
      - rewrite fl64_exact by lia. lia.
      - assert (2^53 <= Js.fl64 (s * 1103515245)) by (apply fl64_large; lia).
        lia. }
    destruct (fl64_even _ Hsum) as [k Hk]. rewrite Hk in Heq.
    revert Heq. Z.to_euclidean_division_equations. lia.
Qed.

Lemma after_nonneg (n : nat) (st : rng) : 0 <= st -> 0 <= after n st.
Proof.
  revert st. induction n as [|n IH]; intros st H; simpl.
  - exact H.
  - apply IH. apply nextSeed_range.
Qed.

Lemma rand_unit (st : rng) : 0 <= st -> (0 <= fst (rand st) < 1)%Q.
Proof.
  intros H. unfold rand. cbn [fst].
  assert (Hr := nextSeed_range st).
  assert (Hm := nextSeed_below_max st H).
  unfold Qle, Qlt. cbn [Qnum Qden]. lia.
Qed.

Lemma rand_state_nonneg (st : rng) : 0 <= snd (rand st).
Proof. unfold rand. cbn [snd]. apply nextSeed_range. Qed.

(** ** Hasher *)

(** C7.  [hashString] is defined on every sequence of code units and is the
    polynomial hash [h = h*31 + codeUnit] in 32-bit wrapping arithmetic
    with the absolute value taken at the end; so the hash of the empty
    string is 0 and no hash is negative. *)
Theorem hashString_polynomial :
  (forall str : jsstring,
      hashString str = spec_Hasher str /\ 0 <= hashString str) /\
  hashString [] = 0.
Proof.
  split; [| reflexivity].
  intros str. split.
  - unfold hashString, spec_Hasher. rewrite fold_hashStep. reflexivity.
  - apply hashString_nonneg.
Qed.

(** ** DeterministicSequence *)

(** C2.  Whatever non-negative digest seeds the sequence and however many
    draws came before, the next draw is at least 0 and strictly below 1. *)
Theorem rand_in_unit_interval :
  forall (digest : Z) (n : nat),
    0 <= digest ->
    let r := fst (rand (after n (seededRandom digest))) in
    (0 <= r /\ r < 1)%Q.
Proof.
  intros digest n H. cbv zeta.
  apply rand_unit. apply after_nonneg. exact H.
Qed.

Lemma rand_in_unit_interval_witness :
  0 <= 96354 /\
  (0 <= fst (rand (after 3 (seededRandom 96354))) /\
   fst (rand (after 3 (seededRandom 96354))) < 1)%Q.
Proof.
  split; [lia |]. apply (rand_in_unit_interval 96354 3). lia.
Defined.


(** Rounding is what keeps the draws below 1: under the exact recurrence
    the register 230538014 would be followed by 2^31 - 1, and the draw
    would be 1.  In binary64 it is followed by 0. *)
Lemma exact_recurrence_would_draw_one :
  spec_nextState 230538014 = 2^31 - 1 /\ snd (rand 230538014) = 0.
Proof. split; vm_compute; reflexivity. Qed.

(** ** Reasoning about code that draws *)

Lemma yields_ret {A} (a : A) (P : A -> Prop) : P a -> yields (ret a) P.
Proof. intros H st Hst. split; assumption. Qed.

Lemma yields_bind {A B} (m : Rand A) (k : A -> Rand B)
      (P : A -> Prop) (Q : B -> Prop) :
  yields m P -> (forall a, P a -> yields (k a) Q) -> yields (x <- m ;; k x) Q.
Proof.
  intros Hm Hk st Hst. unfold bind.
  destruct (Hm st Hst) as [Ha Hst'].
  destruct (m st) as [a st']. cbn [fst snd] in *.
  apply Hk; assumption.
Qed.

Lemma yields_weaken {A} (m : Rand A) (P Q : A -> Prop) :
  yields m P -> (forall a, P a -> Q a) -> yields m Q.
Proof.
  intros Hm HPQ st Hst. destruct (Hm st Hst). split; auto.
Qed.

Lemma yields_rand : yields rand (fun r => 0 <= r < 1)%Q.
Proof.
  intros st Hst. split; [apply rand_unit; exact Hst | apply rand_state_nonneg].
Qed.

Lemma yields_rand_any : yields rand (fun _ => True).
Proof. eapply yields_weaken; [apply yields_rand | trivial]. Qed.

Lemma floor_scaled (r : Q) (n : Z) :
  0 < n -> (0 <= r < 1)%Q -> 0 <= Js.floor (r * inject_Z n) < n.
Proof.
  intros Hn [H0 H1]. destruct r as [a b].
  unfold Qlt, Qle in H0, H1. cbn in H0, H1.
  unfold Js.floor, Qfloor, Qmult, inject_Z. cbn [Qnum Qden].
  rewrite Pos.mul_1_r.
  assert (Hb : 0 < Z.pos b) by lia.
  split.
  - apply Z.div_pos; nia.
  - apply Z.div_lt_upper_bound; nia.
Qed.

Lemma yields_randInt (n : Z) :
  0 < n -> yields (randInt n) (fun i => 0 <= i < n).
Proof.
  intros Hn. unfold randInt.
  eapply yields_bind; [apply yields_rand |].
  intros r Hr. apply yields_ret. apply floor_scaled; assumption.
Qed.

Lemma yields_randInt_any (n : Z) : yields (randInt n) (fun _ => True).
Proof.
  unfold randInt. eapply yields_bind; [apply yields_rand_any |].
  intros r _. apply yields_ret. exact I.
Qed.

Lemma index_defined {A} (arr : list A) (i : Z) :
  index arr i <> None <-> 0 <= i < len arr.
Proof.
  unfold index, len.
  destruct (Z.ltb_spec i 0) as [Hneg | Hpos].
  - split; [congruence | lia].
  - rewrite nth_error_Some. lia.
Qed.

Lemma yields_choose {A} (arr : list A) :
  arr <> [] -> yields (choose arr) (fun c => c <> None).
Proof.
  intros Hne. unfold choose.
  eapply yields_bind.
  - apply yields_randInt. unfold len. destruct arr; [congruence | cbn; lia].
  - intros i Hi. apply yields_ret. apply index_defined. exact Hi.
Qed.

Lemma yields_forFrom {A} (P : A -> Prop) (body : Z -> Rand (list A)) :
  (forall i, yields (body i) (Forall P)) ->
  forall n from, yields (forFrom from n body) (Forall P).
Proof.
  intros Hbody. induction n as [|n IH]; intros from; cbn [forFrom].
  - apply yields_ret. constructor.
  - eapply yields_bind; [apply Hbody |]. intros out Hout.
    eapply yields_bind; [apply IH |]. intros rest Hrest.
    apply yields_ret. apply Forall_app. split; assumption.
Qed.

Lemma yields_forLt {A} (P : A -> Prop) (bound : Q)
      (body : Z -> Rand (list A)) :
  (forall i, yields (body i) (Forall P)) ->
  yields (forLt bound body) (Forall P).
Proof. intros H. unfold forLt. apply yields_forFrom. exact H. Qed.

(** One step through a computation whose drawn values need no property
    except that a chosen colour is defined. *)
Ltac draw :=
  lazymatch goal with
  | |- yields (bind (choose _) _) _ =>
      eapply yields_bind;
      [apply yields_choose; first [assumption | discriminate] | intros ? ?]
  | |- yields (bind rand _) _ =>
      eapply yields_bind; [apply yields_rand_any | intros ? _]
  | |- yields (bind (randInt _) _) _ =>
      eapply yields_bind; [apply yields_randInt_any | intros ? _]
  | |- yields (if ?b then _ else _) _ => destruct b
  | |- yields (ret _) _ => apply yields_ret
  end.

Ltac colours :=
  unfold coloursDefined;
  repeat first [apply Forall_nil | apply Forall_cons];
  cbn [elementColour]; first [assumption | discriminate].

(** ** The renderers leave no colour undefined *)

Section RendererColours.

Variable palette : list string.
Variable size : Z.
Hypothesis palette_nonempty : palette <> [].

Lemma geometricShape_colours (i : Z) :
  yields (geometricShape palette size i) coloursDefined.
Proof.
  unfold geometricShape. cbv zeta. repeat draw; colours.
Qed.

Lemma generateGeometric_colours :
  yields (generateGeometric palette size) coloursDefined.
Proof.
  unfold generateGeometric. draw. cbv zeta.
  apply yields_forLt. apply geometricShape_colours.
Qed.

Lemma blobPoint_any (cx cy r : num) (j : Z) :
  yields (blobPoint cx cy r j) (Forall (fun _ => True)).
Proof.
  unfold blobPoint. cbv zeta. repeat draw. repeat constructor.
Qed.

Lemma organicBlob_colours (i : Z) :
  yields (organicBlob palette size i) coloursDefined.
Proof.
  unfold organicBlob. cbv zeta. do 5 draw.
  eapply yields_bind; [apply yields_forLt; apply blobPoint_any |].
  intros points _. draw. colours.
Qed.

Lemma generateOrganic_colours :
  yields (generateOrganic palette size) coloursDefined.
Proof.
  unfold generateOrganic. draw. cbv zeta.
  apply yields_forLt. apply organicBlob_colours.
Qed.

Lemma pixelCell_colours (x y : Z) :
  yields (pixelCell palette x y) coloursDefined.
Proof.
  unfold pixelCell. cbv zeta. repeat draw; colours.
Qed.

Lemma generatePixel_colours :
  yields (generatePixel palette size) coloursDefined.
Proof.
  unfold generatePixel, pixelLoops. cbv zeta.
  apply yields_forLt. intros x.
  apply yields_forLt. intros y. apply pixelCell_colours.
Qed.

Lemma circuitSegments_any (n : nat) :
  forall x y path, yields (circuitSegments n x y path) (fun _ => True).
Proof.
  induction n as [|n IH]; intros x y path; cbn [circuitSegments].
  - draw. exact I.
  - draw. draw. cbv zeta.
    destruct (match a with 0 => _ | _ => _ end) as [x' y']. apply IH.
Qed.

Lemma circuitTrace_colours (i : Z) :
  yields (circuitTrace palette size i) coloursDefined.
Proof.
  unfold circuitTrace. cbv zeta. do 4 draw.
  eapply yields_bind; [apply circuitSegments_any |].
  intros [[x y] path] _. draw. colours.
Qed.

Lemma circuitNode_colours (i : Z) :
  yields (circuitNode palette size i) coloursDefined.
Proof.
  unfold circuitNode. cbv zeta. repeat draw; colours.
Qed.

Lemma generateCircuit_colours :
  yields (generateCircuit palette size) coloursDefined.
Proof.
  unfold generateCircuit. draw. cbv zeta.
  eapply yields_bind; [apply yields_forLt; apply circuitTrace_colours |].
  intros traces Ht.
  eapply yields_bind; [apply yields_forLt; apply circuitNode_colours |].
  intros nodes Hn. draw. apply Forall_app. split; assumption.
Qed.

Lemma stacksLayer_colours (i : Z) :
  yields (stacksLayer size i) coloursDefined.
Proof.
  unfold stacksLayer. cbv zeta. repeat draw.
  unfold coloursDefined. repeat constructor. cbn [elementColour].
  apply index_defined. apply Z.mod_pos_bound. reflexivity.
Qed.

Lemma stacksParticle_colours (i : Z) :
  yields (stacksParticle size i) coloursDefined.
Proof.
  unfold stacksParticle, stacksPalette. cbv zeta. repeat draw; colours.
Qed.

Lemma generateStacks_colours :
  yields (generateStacks size) coloursDefined.
Proof.
  unfold generateStacks. draw. cbv zeta.
  eapply yields_bind; [apply yields_forLt; apply stacksLayer_colours |].
  intros layers Hl.
  eapply yields_bind; [apply yields_forLt; apply stacksParticle_colours |].
  intros particles Hp. draw.
  apply Forall_app. split; [exact Hl |].
  apply Forall_app. split; [colours | exact Hp].
Qed.

End RendererColours.

(** ** generateArt *)

Lemma after_1_1 (st : rng) : after 1 (after 1 st) = after 2 st.
Proof. cbn [after]. reflexivity. Qed.

Lemma choose_state {A} (arr : list A) (st : rng) :
  snd (choose arr st) = after 1 st.
Proof.
  unfold choose, randInt, bind, ret. cbn [after].
  destruct (rand st) as [r st']. reflexivity.
Qed.

Lemma choose_In {A} (arr : list A) (st : rng) (a : A) :
  fst (choose arr st) = Some a -> In a arr.
Proof.
  unfold choose, randInt, bind, ret.
  destruct (rand st) as [r st']. cbn [fst]. unfold index.
  destruct (_ <? 0); [discriminate |]. apply nth_error_In.
Qed.

Lemma PALETTES_entry (palette : list string) :
  In palette PALETTES ->
  palette <> [] /\
  (exists c0 c1, index palette 0 = Some c0 /\ index palette 1 = Some c1).
Proof.
  intros H. cbn in H.
  repeat (destruct H as [<- | H]; [split; [discriminate | eexists _, _; split; reflexivity] |]).
  contradiction.
Qed.

Lemma renderStyle_colours (style : string) (palette : list string) (size : Z) :
  palette <> [] -> yields (renderStyle style palette size) coloursDefined.
Proof.
  intros H. unfold renderStyle.
  repeat match goal with |- yields (if ?b then _ else _) _ => destruct b end;
    auto using generateGeometric_colours, generateOrganic_colours,
               generatePixel_colours, generateCircuit_colours,
               generateStacks_colours.
Qed.

(** What [generateArt] does, for every input. *)
Lemma generateArt_spec (seed : jsstring) (style : string) (size : Z) :
  exists palette,
    drawnPalette seed = Some palette /\
    In palette PALETTES /\
    drawnBgColor seed palette <> None /\
    generateArt seed style size =
      Returns {|
        viewBox := (0, 0, size, size);
        gradient := (mkStop 0 (index palette 0) 0.8,
                     mkStop 100 (index palette 1) 0.8);
        background := (size, size);
        elements := fst (renderStyle style palette size (after 2 (start seed)))
      |} /\
    coloursDefined
      (fst (renderStyle style palette size (after 2 (start seed)))).
Proof.
  assert (H0 : 0 <= start seed) by apply hashString_nonneg.
  assert (HP : PALETTES <> []) by discriminate.
  destruct (yields_choose PALETTES HP _ H0) as [Hdef Hst1].
  assert (Hs1 := choose_state PALETTES (start seed)).
  unfold generateArt, drawnPalette, drawnBgColor.
  fold (start seed).
  destruct (choose PALETTES (start seed)) as [[palette |] st1] eqn:E1;
    cbn [fst snd] in *; [| congruence].
  exists palette.
  assert (Hin : In palette PALETTES).
  { apply (choose_In PALETTES (start seed)). rewrite E1. reflexivity. }
  destruct (PALETTES_entry palette Hin) as [Hne _].
  destruct (yields_choose palette Hne _ Hst1) as [Hbg Hst2].
  assert (Hs2 := choose_state palette st1).
  subst st1.
  destruct (choose palette (after 1 (start seed))) as [bg st2] eqn:E2.
  cbn [fst snd] in *.
  rewrite after_1_1 in Hs2. subst st2.
  destruct (renderStyle_colours style palette size Hne _ Hst2) as [Hcol _].
  destruct (renderStyle style palette size (after 2 (start seed)))
    as [els st3] eqn:E3.
  cbn [fst] in *.
  split; [reflexivity |]. split; [exact Hin |]. split; [exact Hbg |].
  split; [reflexivity | exact Hcol].
Qed.

Lemma renderStyle_default (y : string) (palette : list string) (size : Z) :
  ~ In y recognized ->
  renderStyle y palette size = generateGeometric palette size.
Proof.
  intros H. unfold renderStyle.
  repeat match goal with
         | |- context [String.eqb y ?s] =>
             destruct (String.eqb_spec y s) as [-> | _];
             [exfalso; apply H; cbn; tauto |]
         end.
  reflexivity.
Qed.

Lemma renderStyle_geometric (palette : list string) (size : Z) :
  renderStyle "geometric" palette size = generateGeometric palette size.
Proof. unfold renderStyle. rewrite String.eqb_refl. reflexivity. Qed.

(** [generateArt] has no test on [size]: at 0 and at a negative size it
    returns a document like anywhere else. *)
Lemma generateArt_nonpositive_size_returns :
  ~ (raises (generateArt (units "abc") "geometric" 0) <-> 0 <= 0) /\
  ~ (raises (generateArt (units "abc") "geometric" (-400)) <-> -400 <= 0).
Proof.
  split; intros [_ H].
  - destruct (generateArt_spec (units "abc") "geometric" 0)
      as (p & _ & _ & _ & E & _).
    rewrite E in H. cbn [raises] in H. apply H. lia.
  - destruct (generateArt_spec (units "abc") "geometric" (-400))
      as (p & _ & _ & _ & E & _).
    rewrite E in H. cbn [raises] in H. apply H. lia.
Qed.

(** For the empty seed the first draw selects the first catalog palette, and
    the gradient of the Stacks render starts with its colours, not with
    those of the fixed palette of [generateStacks]. *)
Lemma stacks_gradient_uses_drawn_palette :
  exists d,
    generateArt [] "stacks" 400 = Returns d /\
    stopColor (fst (gradient d)) = Some "#FF6B6B"%string /\
    stopColor (snd (gradient d)) = Some "#4ECDC4"%string /\
    stopColor (fst (gradient d)) <> index stacksPalette 0 /\
    stopColor (snd (gradient d)) <> index stacksPalette 1.
Proof.
  destruct (generateArt_spec [] "stacks" 400) as (p & Hp & _ & _ & E & _).
  assert (Hp' : drawnPalette [] = nth_error PALETTES 0)
    by (vm_compute; reflexivity).
  rewrite Hp' in Hp. cbn [nth_error PALETTES] in Hp. injection Hp as <-.
  eexists. split; [exact E |]. cbn [gradient fst snd stopColor].
  repeat split; discriminate.
Qed.

(** C4, as amended.  For every seed, style and canvas size the background
    is a two-stop linear gradient whose stop colours are the first two
    entries of the palette the first draw selected from the catalog, each
    stop at 80% opacity.  This holds for the Stacks style as for the others:
    the fixed Stacks palette colours the Stacks primitives only. *)
Theorem gradient_from_drawn_palette :
  forall (seed : jsstring) (style : string) (size : Z),
  exists (palette : list string) (c0 c1 : string) (d : document),
    drawnPalette seed = Some palette /\
    In palette PALETTES /\
    index palette 0 = Some c0 /\
    index palette 1 = Some c1 /\
    generateArt seed style size = Returns d /\
    gradient d = (mkStop 0 (Some c0) 0.8, mkStop 100 (Some c1) 0.8).
Proof.
  intros seed style size.
  destruct (generateArt_spec seed style size) as (p & Hp & Hin & _ & E & _).
  destruct (PALETTES_entry p Hin) as [_ (c0 & c1 & H0 & H1)].
  exists p, c0, c1. eexists.
  repeat (split; [eassumption |]).
  cbn [gradient]. rewrite H0, H1. reflexivity.
Qed.

(** C5.  For a style identifier outside geometric, organic, pixel, circuit
    and stacks, [generateArt] returns what it returns for "geometric": a
    document whose elements are those of the Geometric renderer, started on
    the register that the two opening draws leave. *)
Theorem unrecognized_style_is_geometric :
  forall (seed : jsstring) (y : string) (size : Z),
    0 < size ->
    ~ In y recognized ->
    generateArt seed y size = generateArt seed "geometric" size /\
    exists (palette : list string) (d : document),
      drawnPalette seed = Some palette /\
      generateArt seed y size = Returns d /\
      elements d = fst (generateGeometric palette size (after 2 (start seed))).
Proof.
  intros seed y size _ Hy.
  destruct (generateArt_spec seed y size) as (p & Hp & _ & _ & E & _).
  destruct (generateArt_spec seed "geometric" size)
    as (p' & Hp' & _ & _ & E' & _).
  assert (p' = p) by congruence. subst p'.
  rewrite renderStyle_default in E by exact Hy.
  rewrite renderStyle_geometric in E'.
  split.
  - rewrite E, E'. reflexivity.
  - exists p. eexists. split; [exact Hp |]. split; [exact E |]. reflexivity.
Qed.

Lemma unrecognized_style_is_geometric_witness :
  0 < 400 /\
  ~ In "faces"%string recognized /\
  ~ In "unknown-style"%string recognized /\
  generateArt (units "abc") "faces" 400
  = generateArt (units "abc") "geometric" 400 /\
  generateArt (units "abc") "unknown-style" 400
  = generateArt (units "abc") "geometric" 400.
Proof.
  assert (H : forall y, existsb (String.eqb y) recognized = false ->
                        ~ In y recognized).
  { intros y Hy Hin.
    assert (Ht : existsb (String.eqb y) recognized = true).
    { apply existsb_exists. exists y. split; [exact Hin |].
      apply String.eqb_refl. }
    congruence. }
  assert (Hf : ~ In "faces"%string recognized) by (apply H; reflexivity).
  assert (Hu : ~ In "unknown-style"%string recognized)
    by (apply H; reflexivity).
  split; [lia |]. split; [exact Hf |]. split; [exact Hu |]. split.
  - apply (unrecognized_style_is_geometric (units "abc") "faces" 400);
      [lia | exact Hf].
  - apply (unrecognized_style_is_geometric (units "abc") "unknown-style" 400);
      [lia | exact Hu].
Defined.

(** ** generateTraits *)

Lemma generateTraits_spec (seed : jsstring) (style : string) :
  exists r b m : string,
    In r rarities /\ In b backgrounds /\ In m moods /\
    generateTraits seed style =
      [ mkTrait "Style" (Some (orElse (nameOf (getStyle style)) style));
        mkTrait "Rarity" (Some r);
        mkTrait "Background" (Some b);
        mkTrait "Mood" (Some m);
        mkTrait "Generation" (Some "Genesis"%string) ].
Proof.
  assert (H0 : 0 <= start seed) by apply hashString_nonneg.
  unfold generateTraits. fold (start seed).
  assert (Hr : rarities <> []) by discriminate.
  assert (Hb : backgrounds <> []) by discriminate.
  assert (Hm : moods <> []) by discriminate.
  destruct (yields_choose rarities Hr _ H0) as [Hd1 Hs1].
  assert (Hi1 := choose_In rarities (start seed)).
  destruct (choose rarities (start seed)) as [[r |] st1];
    cbn [fst snd] in *; [| congruence].
  destruct (yields_choose backgrounds Hb _ Hs1) as [Hd2 Hs2].
  assert (Hi2 := choose_In backgrounds st1).
  destruct (choose backgrounds st1) as [[b |] st2];
    cbn [fst snd] in *; [| congruence].
  destruct (yields_choose moods Hm _ Hs2) as [Hd3 _].
  assert (Hi3 := choose_In moods st2).
  destruct (choose moods st2) as [[m |] st3];
    cbn [fst snd] in *; [| congruence].
  exists r, b, m. auto.
Qed.

Lemma generateTraits_tail (seed : jsstring) (y1 y2 : string) :
  tl (generateTraits seed y1) = tl (generateTraits seed y2) /\
  List.length (tl (generateTraits seed y1)) = 4%nat /\
  map trait_type (generateTraits seed y1)
  = map trait_type (generateTraits seed y2).
Proof.
  unfold generateTraits. fold (start seed).
  destruct (choose rarities (start seed)) as [r st1].
  destruct (choose backgrounds st1) as [b st2].
  destruct (choose moods st2) as [m st3].
  repeat split.
Qed.

(** C10.  The style argument reaches the first entry only: for two style
    identifiers the trait lists of one seed agree on entries 2 to 5, and on
    the trait types of all five. *)
Theorem traits_independent_of_style :
  forall (seed : jsstring) (y1 y2 : string),
    tl (generateTraits seed y1) = tl (generateTraits seed y2) /\
    List.length (tl (generateTraits seed y1)) = 4%nat /\
    map trait_type (generateTraits seed y1)
    = map trait_type (generateTraits seed y2).
Proof. intros seed y1 y2. apply generateTraits_tail. Qed.

(** The parts of the trait contract that hold for every style identifier:
    five entries, the trait types in their fixed order, the last entry the
    constant one, every value defined; the catalog name for a catalog key,
    and the identifier itself for a key that neither the catalog nor
    [Object.prototype] has. *)
Lemma generateTraits_shape (seed : jsstring) (y : string) :
  List.length (generateTraits seed y) = 5%nat /\
  map trait_type (generateTraits seed y)
  = ["Style"; "Rarity"; "Background"; "Mood"; "Generation"]%string /\
  nth_error (generateTraits seed y) 4
  = Some (mkTrait "Generation" (Some "Genesis"%string)) /\
  Forall (fun t => value t <> None) (generateTraits seed y) /\
  (forall info, assoc y STYLES = Some info ->
     nth_error (generateTraits seed y) 0
     = Some (mkTrait "Style" (Some (name info)))) /\
  (assoc y STYLES = None -> assoc y ObjectPrototype = None ->
     nth_error (generateTraits seed y) 0 = Some (mkTrait "Style" (Some y))).
Proof.
  destruct (generateTraits_spec seed y) as (r & b & m & _ & _ & _ & E).
  rewrite E. cbn [List.length map trait_type nth_error].
  repeat split.
  - repeat constructor; cbn [value]; discriminate.
  - intros info Hinfo. unfold getStyle. rewrite Hinfo. cbn [nameOf].
    assert (Hname : (name info =? "")%string = false).
    { revert Hinfo. unfold STYLES. cbn [assoc].
      repeat (destruct (_ =? y)%string;
              [intros [= <-]; reflexivity |]).
      discriminate. }
    unfold orElse. rewrite Hname. reflexivity.
  - intros H1 H2. unfold getStyle. rewrite H1, H2. reflexivity.
Qed.

Example traits_seed1_stacks :
  generateTraits (units "seed-1") "stacks" =
  [ mkTrait "Style" (Some "Stacks"); mkTrait "Rarity" (Some "Epic");
    mkTrait "Background" (Some "Sunset"); mkTrait "Mood" (Some "Mysterious");
    mkTrait "Generation" (Some "Genesis") ]%string.
Proof. vm_compute. reflexivity. Qed.

(** C6 at the identifier "constructor".  It is no key of the catalog, and
    the lookup [STYLES[style]] finds the inherited [Object] function, whose
    [name] is "Object": the Style value is "Object", not the identifier.
    The other four entries are as for any style. *)
Theorem generateTraits_constructor :
  ~ In "constructor"%string catalogKeys /\
  forall seed : jsstring,
    nth_error (generateTraits seed "constructor") 0
    = Some (mkTrait "Style" (Some "Object"%string)) /\
    nth_error (generateTraits seed "constructor") 0
    <> Some (mkTrait "Style" (Some "constructor"%string)) /\
    tl (generateTraits seed "constructor")
    = tl (generateTraits seed "geometric").
Proof.
  split.
  - cbn. intros H. repeat (destruct H as [H | H]; [discriminate H |]).
    exact H.
  - intros seed.
    destruct (generateTraits_spec seed "constructor")
      as (r & b & m & _ & _ & _ & E).
    split; [| split].
    + rewrite E. reflexivity.
    + rewrite E. cbn. discriminate.
    + apply generateTraits_tail.
Qed.

(** C9.  No lookup [arr[Math.floor(rand() * arr.length)]] leaves its list.
    At any point of the sequence of any seed the index drawn for a list
    of five entries is one of 0..4; in [generateArt] the palette and the
    background colour are found and every element of every renderer has its
    colour; in [generateTraits] every value is found. *)
Theorem lookups_in_bounds :
  forall (seed : jsstring) (style : string) (size : Z),
    (forall n : nat,
        0 <= fst (randInt 5 (after n (start seed))) < 5) /\
    (exists (palette : list string) (bg : string) (d : document),
        drawnPalette seed = Some palette /\
        len palette = 5 /\
        drawnBgColor seed palette = Some bg /\
        generateArt seed style size = Returns d /\
        coloursDefined (elements d)) /\
    Forall (fun t => value t <> None) (generateTraits seed style).
Proof.
  intros seed style size. split; [| split].
  - intros n. apply yields_randInt; [lia |].
    apply after_nonneg. apply hashString_nonneg.
  - destruct (generateArt_spec seed style size)
      as (p & Hp & Hin & Hbg & E & Hcol).
    destruct (drawnBgColor seed p) as [bg |] eqn:Ebg; [| congruence].
    exists p, bg. eexists.
    split; [exact Hp |]. split.
    { cbn in Hin.
      repeat (destruct Hin as [<- | Hin]; [reflexivity |]). contradiction. }
    split; [exact Ebg |]. split; [exact E |]. exact Hcol.
  - apply generateTraits_shape.
Qed.

(** ** The Pixel grid *)

Lemma forEach_ext {A B} (l : list A) (f g : A -> Rand (list B)) :
  (forall a st, f a st = g a st) ->
  forall st, forEach l f st = forEach l g st.
Proof.
  intros Hfg. induction l as [|a l IH]; intros st; cbn [forEach].
  - reflexivity.
  - unfold bind. rewrite Hfg. destruct (g a st) as [out st1].
    rewrite IH. reflexivity.
Qed.

Lemma forEach_map {A B C} (h : A -> B) (l : list A)
      (f : B -> Rand (list C)) :
  forall st, forEach (map h l) f st = forEach l (fun a => f (h a)) st.
Proof.
  induction l as [|a l IH]; intros st; cbn [forEach map].
  - reflexivity.
  - unfold bind. destruct (f (h a) st) as [out st1].
    rewrite IH. reflexivity.
Qed.

Lemma forEach_app {A B} (l l' : list A) (f : A -> Rand (list B)) :
  forall st,
    forEach (l ++ l') f st
    = (a <- forEach l f ;; b <- forEach l' f ;; ret (a ++ b)) st.
Proof.
  induction l as [|x l IH]; intros st; cbn [forEach app].
  - unfold bind, ret. destruct (forEach l' f st). reflexivity.
  - unfold bind, ret. destruct (f x st) as [out st1].
    rewrite IH. unfold bind, ret.
    destruct (forEach l f st1) as [a st2].
    destruct (forEach l' f st2) as [b st3].
    rewrite app_assoc. reflexivity.
Qed.

Lemma forEach_flat_map {A B C} (g : A -> list B) (l : list A)
      (f : B -> Rand (list C)) :
  forall st,
    forEach l (fun x => forEach (g x) f) st = forEach (flat_map g l) f st.
Proof.
  induction l as [|x l IH]; intros st; cbn [forEach flat_map].
  - reflexivity.
  - rewrite forEach_app. unfold bind, ret.
    destruct (forEach (g x) f st) as [out st1].
    rewrite IH. reflexivity.
Qed.

Lemma forEach_report {A} (l : list (A * A)) :
  forall st, forEach l (fun c => ret [(fst c, snd c)]) st = (l, st).
Proof.
  induction l as [|[x y] l IH]; intros st; cbn [forEach].
  - reflexivity.
  - unfold bind, ret. rewrite IH. reflexivity.
Qed.

Lemma forFrom_forEach {A} (body : Z -> Rand (list A)) (n : nat) :
  forall from st,
    forFrom from n body st
    = forEach (map (fun k => from + Z.of_nat k) (seq 0 n)) body st.
Proof.
  induction n as [|n IH]; intros from st.
  - reflexivity.
  - cbn [forFrom seq map forEach]. change (Z.of_nat 0) with 0.
    rewrite Z.add_0_r. unfold bind.
    destruct (body from st) as [out st1].
    rewrite IH. rewrite <- seq_shift, map_map.
    rewrite (map_ext (fun k => from + Z.of_nat (S k))
                     (fun k => from + 1 + Z.of_nat k)) by (intros; lia).
    reflexivity.
Qed.

Lemma forLt_forEach {A} (bound : Q) (body : Z -> Rand (list A)) :
  forall st, forLt bound body st = forEach (upto (trips bound)) body st.
Proof.
  intros st. unfold forLt, upto. rewrite forFrom_forEach.
  rewrite (map_ext (fun k => 0 + Z.of_nat k) Z.of_nat) by (intros; lia).
  reflexivity.
Qed.

(** [Math.ceil(size / 20)], at least 0. *)
Lemma trips_grid (size : Z) :
  trips (inject_Z size / inject_Z 20) = Z.to_nat ((size + 19) / 20).
Proof.
  unfold trips, Qceiling, Qfloor, Qdiv, Qinv, Qmult, Qopp, inject_Z.
  cbn [Qnum Qden]. f_equal.
  change (Z.pos (1 * 20)) with 20.
  Z.to_euclidean_division_equations. lia.
Qed.

Lemma pixelLoops_forEach {A} (size : Z) (body : Z -> Z -> Rand (list A)) :
  forall st,
    pixelLoops size body st
    = forEach (gridCells (Z.to_nat ((size + 19) / 20)))
              (fun c => body (fst c) (snd c)) st.
Proof.
  intros st. unfold pixelLoops, gridCells. cbv zeta.
  set (n := Z.to_nat ((size + 19) / 20)).
  rewrite forLt_forEach. rewrite trips_grid. fold n.
  rewrite <- forEach_flat_map.
  apply forEach_ext. intros x st'.
  rewrite forLt_forEach. rewrite trips_grid. fold n.
  rewrite forEach_map. reflexivity.
Qed.

Lemma pixelCells_grid (size : Z) :
  pixelCells size = gridCells (Z.to_nat ((size + 19) / 20)).
Proof.
  unfold pixelCells. rewrite pixelLoops_forEach.
  rewrite forEach_report. reflexivity.
Qed.

Lemma upto_length (n : nat) : List.length (upto n) = n.
Proof. unfold upto. rewrite length_map, length_seq. reflexivity. Qed.

Lemma gridCells_length (n : nat) : List.length (gridCells n) = (n * n)%nat.
Proof.
  unfold gridCells.
  assert (H : forall l : list Z,
             List.length (flat_map (fun x => map (fun y => (x, y)) (upto n)) l)
             = (List.length l * n)%nat).
  { induction l as [|x l IH]; cbn [flat_map List.length].
    - reflexivity.
    - rewrite length_app, length_map, upto_length, IH. lia. }
  rewrite H, upto_length. reflexivity.
Qed.

Lemma pixelCell_steps (palette : list string) (x y : Z) (st : rng) :
  pixelCell palette x y st =
  if Js.gt (fst (rand st)) 0.4 then
    ([rect (int (x * 20)) (int (y * 20)) (int 20) (int 20) None
        (fst (choose palette (after 1 st)))
        (Lit 0.6 + Lit (fst (rand (after 2 st))) * Lit 0.4)%num None],
     after 3 st)
  else ([], after 1 st).
Proof.
  unfold pixelCell, choose, randInt, bind, ret. cbv zeta. cbn [after].
  destruct (rand st) as [gate st1]. cbn [fst snd].
  destruct (Js.gt gate 0.4); [| reflexivity].
  destruct (rand st1) as [r st2]. cbn [fst snd].
  destruct (rand st2) as [o st3]. reflexivity.
Qed.

(** For a canvas of side 30, [grid] is 1.5 and both loops run for 0 and 1:
    four cells are evaluated, which is neither 1.5 squared nor the square
    of the integer quotient. *)
Lemma pixel_cells_at_30 :
  pixelCells 30 = [(0, 0); (0, 1); (1, 0); (1, 1)] /\
  ~ (inject_Z (Z.of_nat (List.length (pixelCells 30)))
     == (inject_Z 30 / inject_Z 20) * (inject_Z 30 / inject_Z 20))%Q /\
  Z.of_nat (List.length (pixelCells 30)) <> (30 / 20) ^ 2.
Proof.
  assert (E : pixelCells 30 = [(0, 0); (0, 1); (1, 0); (1, 1)])
    by (vm_compute; reflexivity).
  rewrite E. split; [reflexivity |]. split.
  - intros H. vm_compute in H. discriminate H.
  - intros H. vm_compute in H. discriminate H.
Qed.

(** C8, as amended.  The Pixel renderer visits the cells of a square grid
    with [x] in the outer loop and [y] in the inner one; the grid has
    [ceil(size / 20)] cells a side (none for a size that is not positive),
    so it evaluates [(size / 20)^2] cells when the size is a multiple of
    20: 400 cells for size 400, one cell for size 20.  Each cell makes one
    gate draw; when that draw is above 0.4 the cell is painted with a colour
    chosen by the next draw and an opacity 0.6 + 0.4 * (the draw after),
    which lies in [0.6, 1); otherwise it emits nothing and draws no more. *)
Theorem generatePixel_grid :
  forall (palette : list string) (size : Z) (k : nat) (x y : Z) (st : rng),
    0 <= st ->
    let n := Z.to_nat ((size + 19) / 20) in
    pixelCells size = gridCells n /\
    List.length (pixelCells size) = (n * n)%nat /\
    generatePixel palette size st
    = forEach (pixelCells size) (fun c => pixelCell palette (fst c) (snd c)) st /\
    List.length (pixelCells (20 * Z.of_nat k)) = (k * k)%nat /\
    List.length (pixelCells 400) = 400%nat /\
    List.length (pixelCells 20) = 1%nat /\
    pixelCell palette x y st =
      (if Js.gt (fst (rand st)) 0.4 then
         ([rect (int (x * 20)) (int (y * 20)) (int 20) (int 20) None
             (fst (choose palette (after 1 st)))
             (Lit 0.6 + Lit (fst (rand (after 2 st))) * Lit 0.4)%num None],
          after 3 st)
       else ([], after 1 st)) /\
    exists opacity : Q,
      numValue (Lit 0.6 + Lit (fst (rand (after 2 st))) * Lit 0.4)%num
      = Some opacity /\
      (0.6 <= opacity /\ opacity < 1)%Q.
Proof.
  intros palette size k x y st Hst n.
  assert (Hlen : forall s, List.length (pixelCells s)
                           = (Z.to_nat ((s + 19) / 20)
                              * Z.to_nat ((s + 19) / 20))%nat).
  { intros s. rewrite pixelCells_grid. apply gridCells_length. }
  split; [apply pixelCells_grid |].
  split; [apply Hlen |].
  split.
  { unfold generatePixel. rewrite pixelLoops_forEach.
    rewrite pixelCells_grid. reflexivity. }
  split.
  { rewrite Hlen.
    replace ((20 * Z.of_nat k + 19) / 20) with (Z.of_nat k)
      by (Z.to_euclidean_division_equations; lia).
    rewrite Nat2Z.id. reflexivity. }
  split; [rewrite Hlen; reflexivity |].
  split; [rewrite Hlen; reflexivity |].
  split; [apply pixelCell_steps |].
  assert (Ho : (0 <= fst (rand (after 2 st)) < 1)%Q).
  { apply rand_unit. apply after_nonneg. exact Hst. }
  eexists. split; [reflexivity |].
  revert Ho. generalize (fst (rand (after 2 st))). intros o Ho. lra.
Qed.

Lemma generatePixel_grid_witness :
  0 <= 12345 /\
  pixelCells 20 = gridCells 1 /\
  List.length (pixelCells 20) = 1%nat.
Proof.
  split; [lia |].
  assert (H0 : 0 <= 12345) by lia.
  split.
  - exact (proj1 (generatePixel_grid [] 20 1 0 0 12345 H0)).
  - exact (proj1 (proj2 (generatePixel_grid [] 20 1 0 0 12345 H0))).
Defined.

(** * Further properties of the engine *)

(** ** The digest *)

Lemma fold_hashStep_range (str : jsstring) :
  forall h, - 2^31 <= h < 2^31 ->
            - 2^31 <= fold_left hashStep str h < 2^31.
Proof.
  induction str as [|c str IH]; intros h Hh; cbn [fold_left].
  - exact Hh.
  - apply IH. unfold hashStep. rewrite band_diag. apply toInt32_range.
Qed.

(** X1.  The digest of a seed lies in [[0, 2^31]], and the upper end is reached:
    the hash that wraps to -2^31 keeps its magnitude under [Math.abs], so a
    digest need not fit in 31 bits. *)
Theorem hashString_range :
  (forall str : jsstring, 0 <= hashString str <= 2^31) /\
  hashString (units "Gycxf_") = 2^31.
Proof.
  split; [| vm_compute; reflexivity].
  intros str. unfold hashString.
  assert (H := fold_hashStep_range str 0). lia.
Qed.

Lemma hashStep_Aa_BB (h : Z) :
  hashStep (hashStep h 65) 97 = hashStep (hashStep h 66) 66.
Proof.
  rewrite !hashStep_polyStep. unfold spec_polyStep, wrap32.
  Z.to_euclidean_division_equations. lia.
Qed.

Lemma hashString_Aa_BB (p s : jsstring) :
  hashString (p ++ units "Aa" ++ s) = hashString (p ++ units "BB" ++ s).
Proof.
  unfold hashString. rewrite !fold_left_app. cbn [units fold_left].
  change (Z.of_N (N_of_ascii "A")) with 65.
  change (Z.of_N (N_of_ascii "a")) with 97.
  change (Z.of_N (N_of_ascii "B")) with 66.
  rewrite hashStep_Aa_BB. reflexivity.
Qed.

(** X2.  Seeds enter [generateArt] and [generateTraits] through their digest
    only, and the digest cannot tell "Aa" from "BB": two seeds that differ
    by this replacement, anywhere, get the same document and the same
    traits. *)
Theorem seeds_Aa_BB_coincide :
  forall (p s : jsstring) (style : string) (size : Z),
    hashString (p ++ units "Aa" ++ s) = hashString (p ++ units "BB" ++ s) /\
    generateArt (p ++ units "Aa" ++ s) style size
    = generateArt (p ++ units "BB" ++ s) style size /\
    generateTraits (p ++ units "Aa" ++ s) style
    = generateTraits (p ++ units "BB" ++ s) style.
Proof.
  intros p s style size.
  assert (H := hashString_Aa_BB p s).
  split; [exact H |].
  unfold generateArt, generateTraits. rewrite H. split; reflexivity.
Qed.

(** ** The register *)

(** X3.  Once the register is 8162279 or more, the sum [seed * 1103515245 +
    12345] is beyond 2^53 and binary64 drops its low bits: the register
    that follows is even. *)
Theorem register_even_after_rounding :
  forall seed : Z,
    8162279 <= seed -> Z.even (snd (rand seed)) = true.
Proof.
  intros s Hs. unfold rand. cbn [snd]. rewrite nextSeed_mod.
  assert (Hsum : 2^53 <= Js.fl64 (s * 1103515245) + 12345).
  { destruct (Z.lt_ge_cases (s * 1103515245) (2^53)).
    - rewrite fl64_exact by lia. lia.
    - assert (2^53 <= Js.fl64 (s * 1103515245)) by (apply fl64_large; lia).
      lia. }
  destruct (fl64_even _ Hsum) as [k Hk]. rewrite Hk.
  change (2^31) with (2 * 2^30).
  rewrite Z.mul_mod_distr_l by lia.
  rewrite Z.even_mul. reflexivity.
Qed.

Lemma register_even_after_rounding_witness :
  8162279 <= 1406932606 /\ Z.even (snd (rand 1406932606)) = true.
Proof.
  split; [lia |]. apply (register_even_after_rounding 1406932606). lia.
Defined.

(** ** Counting draws *)

Lemma after_add (m n : nat) (st : rng) :
  after (m + n) st = after n (after m st).
Proof.
  revert st. induction m as [|m IH]; intros st; cbn [after Nat.add].
  - reflexivity.
  - apply IH.
Qed.

Lemma consumes_ret {A} (a : A) : consumes (ret a) 0.
Proof. intros st. reflexivity. Qed.

Lemma consumes_rand : consumes rand 1.
Proof. intros st. reflexivity. Qed.

Lemma consumes_bind {A B} (m : Rand A) (k : A -> Rand B) (i j : nat) :
  consumes m i -> (forall a, consumes (k a) j) ->
  consumes (x <- m ;; k x) (i + j).
Proof.
  intros Hm Hk st. unfold bind. specialize (Hm st).
  destruct (m st) as [a st']. cbn [snd] in Hm. subst st'.
  rewrite Hk. symmetry. apply after_add.
Qed.

Lemma consumes_randInt (n : Z) : consumes (randInt n) 1.
Proof.
  unfold randInt. apply (consumes_bind rand _ 1 0);
    [apply consumes_rand | intros; apply consumes_ret].
Qed.

Lemma consumes_choose {A} (arr : list A) : consumes (choose arr) 1.
Proof.
  unfold choose. apply (consumes_bind _ _ 1 0);
    [apply consumes_randInt | intros; apply consumes_ret].
Qed.

Lemma consumes_forFrom {A} (body : Z -> Rand (list A)) (k : nat) :
  (forall i, consumes (body i) k) ->
  forall n from, consumes (forFrom from n body) (n * k).
Proof.
  intros Hbody. induction n as [|n IH]; intros from; cbn [forFrom].
  - apply consumes_ret.
  - replace (S n * k)%nat with (k + (n * k + 0))%nat by lia.
    apply consumes_bind; [apply Hbody |]. intros out.
    apply consumes_bind; [apply IH |]. intros rest. apply consumes_ret.
Qed.

(** ** How many elements a renderer writes *)

Lemma yields_choose_any {A} (arr : list A) : yields (choose arr) (fun _ => True).
Proof.
  unfold choose. eapply yields_bind; [apply yields_randInt_any |].
  intros i _. apply yields_ret. exact I.
Qed.

Lemma yields_forFrom_length {A} (body : Z -> Rand (list A)) (k : nat) :
  (forall i, yields (body i) (fun l => List.length l = k)) ->
  forall n from,
    yields (forFrom from n body) (fun l => List.length l = (n * k)%nat).
Proof.
  intros Hbody. induction n as [|n IH]; intros from; cbn [forFrom].
  - apply yields_ret. reflexivity.
  - eapply yields_bind; [apply Hbody |]. intros out Hout.
    eapply yields_bind; [apply IH |]. intros rest Hrest.
    apply yields_ret. rewrite length_app, Hout, Hrest. reflexivity.
Qed.

Lemma trips_inject_Z (z : Z) : trips (inject_Z z) = Z.to_nat z.
Proof.
  unfold trips, Qceiling, Qfloor, Qopp, inject_Z. cbn [Qnum Qden].
  rewrite Z.div_1_r, Z.opp_involutive. reflexivity.
Qed.

(** As [draw], for a computation of which only the shape matters. *)
Ltac draw_any :=
  lazymatch goal with
  | |- yields (bind (choose _) _) _ =>
      eapply yields_bind; [apply yields_choose_any | intros ? _]
  | |- yields (bind rand _) _ =>
      eapply yields_bind; [apply yields_rand_any | intros ? _]
  | |- yields (bind (randInt _) _) _ =>
      eapply yields_bind; [apply yields_randInt_any | intros ? _]
  | |- yields (if ?b then _ else _) _ => destruct b
  | |- yields (ret _) _ => apply yields_ret
  end.

Section RendererCounts.

Variable palette : list string.
Variable size : Z.

Lemma geometricShape_one (i : Z) :
  yields (geometricShape palette size i) (fun l => List.length l = 1%nat).
Proof. unfold geometricShape. cbv zeta. repeat draw_any; reflexivity. Qed.

Lemma generateGeometric_count :
  yields (generateGeometric palette size)
         (fun l => 8 <= List.length l <= 19)%nat.
Proof.
  unfold generateGeometric.
  eapply yields_bind; [apply (yields_randInt 12); lia |].
  intros n Hn. cbv beta in Hn. cbv zeta. unfold forLt. rewrite trips_inject_Z.
  eapply yields_weaken;
    [apply yields_forFrom_length; apply geometricShape_one |].
  cbv beta. intros l ->. lia.
Qed.

Lemma organicBlob_one (i : Z) :
  yields (organicBlob palette size i) (fun l => List.length l = 1%nat).
Proof.
  unfold organicBlob. cbv zeta. do 5 draw_any.
  eapply yields_bind; [apply yields_forLt; apply blobPoint_any |].
  intros points _. draw_any. reflexivity.
Qed.

Lemma generateOrganic_count :
  yields (generateOrganic palette size)
         (fun l => 5 <= List.length l <= 12)%nat.
Proof.
  unfold generateOrganic.
  eapply yields_bind; [apply (yields_randInt 8); lia |].
  intros n Hn. cbv beta in Hn. cbv zeta. unfold forLt. rewrite trips_inject_Z.
  eapply yields_weaken;
    [apply yields_forFrom_length; apply organicBlob_one |].
  cbv beta. intros l ->. lia.
Qed.

Lemma circuitTrace_two (i : Z) :
  yields (circuitTrace palette size i) (fun l => List.length l = 2%nat).
Proof.
  unfold circuitTrace. cbv zeta. do 4 draw_any.
  eapply yields_bind; [apply circuitSegments_any |].
  intros [[x y] path] _. draw_any. reflexivity.
Qed.

Lemma circuitNode_one (i : Z) :
  yields (circuitNode palette size i) (fun l => List.length l = 1%nat).
Proof. unfold circuitNode. cbv zeta. repeat draw_any; reflexivity. Qed.

Lemma generateCircuit_count :
  yields (generateCircuit palette size)
         (fun l => (40 <= List.length l <= 78)%nat /\
                   Nat.even (List.length l) = true).
Proof.
  unfold generateCircuit.
  eapply yields_bind; [apply (yields_randInt 20); lia |].
  intros n Hn. cbv beta in Hn. cbv zeta. unfold forLt. rewrite trips_inject_Z.
  eapply yields_bind;
    [apply yields_forFrom_length; apply circuitTrace_two |].
  intros traces Ht.
  eapply yields_bind;
    [apply yields_forFrom_length; apply circuitNode_one |].
  intros nodes Hn'. apply yields_ret.
  rewrite length_app, Ht, Hn'.
  change (trips 10) with 10%nat.
  split; [lia |].
  replace (Z.to_nat (15 + n) * 2 + 10 * 1)%nat
    with (2 * (Z.to_nat (15 + n) + 5))%nat by lia.
  rewrite Nat.even_mul. reflexivity.
Qed.

End RendererCounts.

(** ** The Stacks renderer *)

Lemma yields_forFrom_map {A B} (f : A -> B) (b : B)
      (body : Z -> Rand (list A)) :
  (forall i, yields (body i) (fun l => map f l = [b])) ->
  forall n from,
    yields (forFrom from n body) (fun l => map f l = repeat b n).
Proof.
  intros Hbody. induction n as [|n IH]; intros from; cbn [forFrom].
  - apply yields_ret. reflexivity.
  - eapply yields_bind; [apply Hbody |]. intros out Hout.
    eapply yields_bind; [apply IH |]. intros rest Hrest.
    apply yields_ret. rewrite map_app, Hout, Hrest. reflexivity.
Qed.

Lemma consumes_change {A} (m : Rand A) (k k' : nat) :
  consumes m k' -> k' = k -> consumes m k.
Proof. intros H <-. exact H. Qed.

(** One step through a computation whose draws are counted. *)
Ltac count :=
  lazymatch goal with
  | |- consumes (bind (choose _) _) _ =>
      eapply consumes_bind; [apply consumes_choose | intros ?]
  | |- consumes (bind rand _) _ =>
      eapply consumes_bind; [apply consumes_rand | intros ?]
  | |- consumes (bind (randInt _) _) _ =>
      eapply consumes_bind; [apply consumes_randInt | intros ?]
  | |- consumes (ret _) _ => apply consumes_ret
  end.

Lemma stacksLayer_tag (size i : Z) :
  yields (stacksLayer size i) (fun l => map elementTag l = [Trect]).
Proof. unfold stacksLayer. cbv zeta. repeat draw_any. reflexivity. Qed.

Lemma stacksParticle_tag (size i : Z) :
  yields (stacksParticle size i) (fun l => map elementTag l = [Tcircle]).
Proof. unfold stacksParticle. cbv zeta. repeat draw_any. reflexivity. Qed.

Lemma generateStacks_tags (size : Z) :
  yields (generateStacks size)
         (fun l => map elementTag l
                   = repeat Trect 5 ++ [Ttext] ++ repeat Tcircle 20).
Proof.
  unfold generateStacks. draw_any. cbv zeta. unfold forLt.
  change (trips 5) with 5%nat. change (trips 20) with 20%nat.
  eapply yields_bind;
    [apply (yields_forFrom_map elementTag Trect); apply stacksLayer_tag |].
  intros layers Hl.
  eapply yields_bind;
    [apply (yields_forFrom_map elementTag Tcircle);
     apply stacksParticle_tag |].
  intros particles Hp. apply yields_ret.
  rewrite !map_app, Hl, Hp. reflexivity.
Qed.

Lemma stacksLayer_draws (size i : Z) : consumes (stacksLayer size i) 3.
Proof.
  eapply consumes_change.
  - unfold stacksLayer. cbv zeta. repeat count.
  - reflexivity.
Qed.

Lemma stacksParticle_draws (size i : Z) : consumes (stacksParticle size i) 5.
Proof.
  eapply consumes_change.
  - unfold stacksParticle. cbv zeta. repeat count.
  - reflexivity.
Qed.

Lemma generateStacks_draws (size : Z) : consumes (generateStacks size) 116.
Proof.
  eapply consumes_change.
  - unfold generateStacks. count. cbv zeta. unfold forLt.
    change (trips 5) with 5%nat. change (trips 20) with 20%nat.
    eapply consumes_bind;
      [apply consumes_forFrom; apply stacksLayer_draws | intros layers].
    eapply consumes_bind;
      [apply consumes_forFrom; apply stacksParticle_draws | intros particles].
    apply consumes_ret.
  - reflexivity.
Qed.

(** ** The Pixel renderer, cell by cell *)

Lemma forEach_pixelCell (palette : list string) (l : list (Z * Z)) :
  forall st out st',
    forEach l (fun c => pixelCell palette (fst c) (snd c)) st = (out, st') ->
    st' = after (List.length l + 2 * List.length out) st /\
    (List.length out <= List.length l)%nat /\
    Forall (fun e => exists c fill opacity,
                In c l /\ e = cellRect c fill opacity) out.
Proof.
  induction l as [|c l IH]; intros st out st' E; cbn [forEach] in E.
  - injection E as <- <-. split; [reflexivity |].
    split; [apply Nat.le_refl | constructor].
  - unfold bind, ret in E. rewrite pixelCell_steps in E.
    destruct (Js.gt (fst (rand st)) 0.4); cbv beta iota in E.
    + destruct (forEach l _ (after 3 st)) as [rest st''] eqn:E'.
      apply pair_equal_spec in E. destruct E as [<- <-].
      destruct (IH _ _ _ E') as (Hst & Hlen & Hall).
      cbn [app List.length]. split; [| split].
      * rewrite Hst, <- after_add. f_equal. lia.
      * lia.
      * constructor.
        -- exists c. eexists _, _. split; [left; reflexivity | reflexivity].
        -- eapply Forall_impl; [| exact Hall].
           intros e (c' & f & o & Hin & ->).
           exists c', f, o. split; [right; exact Hin | reflexivity].
    + destruct (forEach l _ (after 1 st)) as [rest st''] eqn:E'.
      apply pair_equal_spec in E. destruct E as [<- <-].
      destruct (IH _ _ _ E') as (Hst & Hlen & Hall).
      cbn [app List.length]. split; [| split].
      * rewrite Hst, <- after_add. f_equal.
      * lia.
      * eapply Forall_impl; [| exact Hall].
        intros e (c' & f & o & Hin & ->).
        exists c', f, o. split; [right; exact Hin | reflexivity].
Qed.

Lemma gridCells_bounds (n : nat) (c : Z * Z) :
  In c (gridCells n) ->
  0 <= fst c < Z.of_nat n /\ 0 <= snd c < Z.of_nat n.
Proof.
  unfold gridCells, upto. intros H.
  apply in_flat_map in H. destruct H as (x & Hx & Hc).
  apply in_map_iff in Hc. destruct Hc as (y & <- & Hy).
  apply in_map_iff in Hx. destruct Hx as (i & <- & Hi).
  apply in_map_iff in Hy. destruct Hy as (j & <- & Hj).
  apply in_seq in Hi. apply in_seq in Hj. cbn [fst snd]. lia.
Qed.

(** ** Opacities as binary64 writes them *)

(** *** Powers of two *)

Lemma pow2_pos (k : Z) : (0 < 2 ^ k)%Q.
Proof. apply Qpower_0_lt. reflexivity. Qed.

Lemma pow2_le (k k' : Z) : k <= k' -> (2 ^ k <= 2 ^ k')%Q.
Proof. intros H. apply Qpower_le_compat_l; [exact H | discriminate]. Qed.

Lemma pow2_plus (k k' : Z) : (2 ^ (k + k') == 2 ^ k * 2 ^ k')%Q.
Proof. apply Qpower_plus. discriminate. Qed.

Lemma pow2_inject (n : Z) : 0 <= n -> (inject_Z (2 ^ n) == 2 ^ n)%Q.
Proof. intros H. rewrite Zpower_Qpower by exact H. reflexivity. Qed.

(** *** The binade *)

Lemma log2_bounds (p : Z) :
  0 < p ->
  (inject_Z (2 ^ Z.log2 p) <= inject_Z p /\
   inject_Z p < inject_Z (2 ^ (Z.log2 p + 1)))%Q.
Proof.
  intros Hp. destruct (Z.log2_spec p Hp) as [Hlo Hhi].
  rewrite <- Zle_Qle, <- Zlt_Qlt.
  rewrite <- Z.add_1_r in Hhi. split; assumption.
Qed.

Lemma binade_spec (x : Q) :
  (0 < x)%Q -> (2 ^ binade x <= x /\ x < 2 ^ (binade x + 1))%Q.
Proof.
  intros Hx.
  assert (Hp : 0 < Qnum x).
  { unfold Qlt in Hx. cbn in Hx. lia. }
  set (lp := Z.log2 (Qnum x)). set (lq := Z.log2 (Z.pos (Qden x))).
  assert (Hlp : 0 <= lp) by apply Z.log2_nonneg.
  assert (Hlq : 0 <= lq) by apply Z.log2_nonneg.
  destruct (log2_bounds (Qnum x) Hp) as [Hp1 Hp2].
  destruct (log2_bounds (Z.pos (Qden x)) ltac:(lia)) as [Hq1 Hq2].
  fold lp in Hp1, Hp2. fold lq in Hq1, Hq2.
  rewrite pow2_inject in Hp1, Hp2, Hq1, Hq2 by lia.
  assert (Hx' : (x * inject_Z (Z.pos (Qden x)) == inject_Z (Qnum x))%Q).
  { destruct x as [p q]. cbn [Qnum Qden].
    unfold Qeq, Qmult, inject_Z. cbn [Qnum Qden]. lia. }
  set (P := inject_Z (Qnum x)) in *.
  set (D := inject_Z (Z.pos (Qden x))) in *.
  assert (HD : (0 < D)%Q) by (unfold D, Qlt, inject_Z; cbn; lia).
  assert (Ha := pow2_pos lp). assert (Hb := pow2_pos lq).
  (* x lies in [2^(lp - lq - 1), 2^(lp - lq + 1)) *)
  assert (HA : (2 ^ (lp - lq - 1) <= x)%Q).
  { replace (lp - lq - 1) with (lp - (lq + 1)) by lia.
    rewrite Qpower_minus by discriminate.
    apply Qle_shift_div_r; [apply pow2_pos |]. nra. }
  assert (HB : (x < 2 ^ (lp - lq + 1))%Q).
  { replace (lp - lq + 1) with (lp + 1 - lq) by lia.
    rewrite Qpower_minus by discriminate.
    apply Qlt_shift_div_l; [apply pow2_pos |]. nra. }
  unfold binade. fold lp lq.
  destruct (Qle_bool (2 ^ (lp - lq)) x) eqn:T.
  - apply Qle_bool_iff in T. split; assumption.
  - assert (Hlt : (x < 2 ^ (lp - lq))%Q).
    { apply Qnot_le_lt. intros H. apply Qle_bool_iff in H. congruence. }
    replace (lp - lq - 1 + 1) with (lp - lq) by lia.
    split; assumption.
Qed.

Lemma binade_mono (x y : Q) :
  (0 < x)%Q -> (x <= y)%Q -> binade x <= binade y.
Proof.
  intros Hx Hxy.
  assert (Hy : (0 < y)%Q) by (eapply Qlt_le_trans; eassumption).
  destruct (binade_spec x Hx) as [Hx1 _].
  destruct (binade_spec y Hy) as [_ Hy2].
  assert (H : binade x < binade y + 1); [| lia].
  apply (Qpower_lt_compat_l_inv 2); [| reflexivity].
  eapply Qle_lt_trans; [exact Hx1 |].
  eapply Qle_lt_trans; eassumption.
Qed.

(** *** The nearest integer *)

Lemma roundHalfEven_bounds (m : Q) :
  Qfloor m <= roundHalfEven m <= Qfloor m + 1.
Proof.
  unfold roundHalfEven.
  destruct (m - inject_Z (Qfloor m) ?= 1 # 2)%Q; [| lia | lia].
  destruct (Z.even (Qfloor m)); lia.
Qed.

Lemma roundHalfEven_mono (m m' : Q) :
  (m <= m')%Q -> roundHalfEven m <= roundHalfEven m'.
Proof.
  intros H.
  assert (Hf := Qfloor_resp_le _ _ H).
  destruct (Z.eq_dec (Qfloor m) (Qfloor m')) as [E | NE].
  - unfold roundHalfEven. rewrite <- E.
    destruct (Qcompare_spec (m - inject_Z (Qfloor m)) (1 # 2)) as [H1 | H1 | H1];
      destruct (Qcompare_spec (m' - inject_Z (Qfloor m)) (1 # 2))
        as [H2 | H2 | H2];
      try (destruct (Z.even (Qfloor m))); try lia; exfalso; lra.
  - assert (B := roundHalfEven_bounds m).
    assert (B' := roundHalfEven_bounds m'). lia.
Qed.

Lemma roundHalfEven_ge (k : Z) (m : Q) :
  (inject_Z k <= m)%Q -> k <= roundHalfEven m.
Proof.
  intros H. assert (Hf := Qfloor_resp_le _ _ H). rewrite Qfloor_Z in Hf.
  assert (B := roundHalfEven_bounds m). lia.
Qed.

Lemma roundHalfEven_le (k : Z) (m : Q) :
  (m <= inject_Z k)%Q -> roundHalfEven m <= k.
Proof.
  intros H. assert (Hf := Qfloor_resp_le _ _ H). rewrite Qfloor_Z in Hf.
  assert (B := roundHalfEven_bounds m).
  destruct (Z.eq_dec (Qfloor m) k) as [E | NE]; [| lia].
  unfold roundHalfEven. rewrite E.
  destruct (Qcompare_spec (m - inject_Z k) (1 # 2)) as [H1 | H1 | H1];
    [exfalso; lra | lia | exfalso; lra].
Qed.

(** *** Rounding to 53 bits *)

Lemma round53_bounds (x : Q) :
  (0 < x)%Q ->
  (2 ^ binade x <= round53 x /\ round53 x <= 2 ^ (binade x + 1))%Q.
Proof.
  intros Hx. destruct (binade_spec x Hx) as [Hlo Hhi].
  unfold round53. set (e := binade x) in *.
  set (u := (2 ^ (e - 52))%Q).
  assert (Hu : (0 < u)%Q) by apply pow2_pos.
  assert (He : (2 ^ e == inject_Z (2 ^ 52) * u)%Q).
  { unfold u. rewrite pow2_inject by lia. rewrite <- pow2_plus.
    replace (52 + (e - 52)) with e by lia. reflexivity. }
  assert (He' : (2 ^ (e + 1) == inject_Z (2 ^ 53) * u)%Q).
  { unfold u. rewrite pow2_inject by lia. rewrite <- pow2_plus.
    replace (53 + (e - 52)) with (e + 1) by lia. reflexivity. }
  assert (Hm1 : (inject_Z (2 ^ 52) <= x / u)%Q).
  { apply Qle_shift_div_l; [exact Hu |]. rewrite <- He. exact Hlo. }
  assert (Hm2 : (x / u <= inject_Z (2 ^ 53))%Q).
  { apply Qle_shift_div_r; [exact Hu |]. rewrite <- He'.
    apply Qlt_le_weak. exact Hhi. }
  apply roundHalfEven_ge in Hm1. apply roundHalfEven_le in Hm2.
  rewrite Zle_Qle in Hm1, Hm2.
  split.
  - rewrite He. apply Qmult_le_compat_r; [exact Hm1 |].
    apply Qlt_le_weak. exact Hu.
  - rewrite He'. apply Qmult_le_compat_r; [exact Hm2 |].
    apply Qlt_le_weak. exact Hu.
Qed.

Lemma round53_mono (x y : Q) :
  (0 < x)%Q -> (x <= y)%Q -> (round53 x <= round53 y)%Q.
Proof.
  intros Hx Hxy.
  assert (Hy : (0 < y)%Q) by (eapply Qlt_le_trans; eassumption).
  assert (He := binade_mono x y Hx Hxy).
  destruct (Z.eq_dec (binade x) (binade y)) as [E | NE].
  - unfold round53. rewrite <- E.
    set (u := (2 ^ (binade x - 52))%Q).
    assert (Hu : (0 < u)%Q) by apply pow2_pos.
    apply Qmult_le_compat_r; [| apply Qlt_le_weak; exact Hu].
    rewrite <- Zle_Qle. apply roundHalfEven_mono.
    unfold Qdiv. apply Qmult_le_compat_r; [exact Hxy |].
    apply Qlt_le_weak. apply Qinv_lt_0_compat. exact Hu.
  - destruct (round53_bounds x Hx) as [_ Hxhi].
    destruct (round53_bounds y Hy) as [Hylo _].
    eapply Qle_trans; [exact Hxhi |].
    eapply Qle_trans; [| exact Hylo].
    apply pow2_le. lia.
Qed.

(** *** binary64 keeps the order of non-negative values *)

Lemma b64_nonneg (x : Q) : (0 <= x)%Q -> (0 <= b64 x)%Q.
Proof.
  intros Hx. unfold b64. destruct x as [[| p | p] q]; cbn [Qnum].
  - apply Qle_refl.
  - assert (H : (0 < Z.pos p # q)%Q) by reflexivity.
    destruct (round53_bounds _ H) as [Hlo _].
    eapply Qle_trans; [| exact Hlo].
    apply Qlt_le_weak. apply pow2_pos.
  - exfalso. unfold Qle in Hx. cbn in Hx. lia.
Qed.

Lemma b64_mono (x y : Q) :
  (0 <= x)%Q -> (x <= y)%Q -> (b64 x <= b64 y)%Q.
Proof.
  intros Hx Hxy.
  assert (Hy : (0 <= y)%Q) by (eapply Qle_trans; eassumption).
  destruct x as [[| p | p] q].
  - apply (b64_nonneg y Hy).
  - destruct y as [[| p' | p'] q'].
    + exfalso. unfold Qle in Hxy. cbn in Hxy. lia.
    + unfold b64. cbn [Qnum]. apply round53_mono; [reflexivity | exact Hxy].
    + exfalso. unfold Qle in Hy. cbn in Hy. lia.
  - exfalso. unfold Qle in Hx. cbn in Hx. lia.
Qed.

(** *** Opacities of the form [c1 + draw * c2] *)

Lemma affine64_mono (c1 c2 o o' : Q) :
  (0 <= c1)%Q -> (0 <= c2)%Q -> (0 <= o)%Q -> (o <= o')%Q ->
  (b64 (b64 c1 + b64 (b64 o * b64 c2))
   <= b64 (b64 c1 + b64 (b64 o' * b64 c2)))%Q.
Proof.
  intros H1 H2 Ho Hoo.
  assert (B1 := b64_nonneg c1 H1). assert (B2 := b64_nonneg c2 H2).
  assert (Bo := b64_nonneg o Ho). assert (Boo := b64_mono o o' Ho Hoo).
  assert (P0 : (0 <= b64 o * b64 c2)%Q)
    by (apply Qmult_le_0_compat; assumption).
  assert (P : (b64 o * b64 c2 <= b64 o' * b64 c2)%Q)
    by (apply Qmult_le_compat_r; assumption).
  assert (R0 := b64_nonneg _ P0). assert (R := b64_mono _ _ P0 P).
  apply b64_mono; lra.
Qed.

(** The largest draw: the register never holds [2^31 - 1]. *)
Lemma rand_tight (st : rng) :
  0 <= st -> (0 <= fst (rand st) <= 2147483646 # 2147483647)%Q.
Proof.
  intros H. unfold rand. cbn [fst].
  assert (Hr := nextSeed_range st).
  assert (Hm := nextSeed_below_max st H).
  unfold Qle. cbn [Qnum Qden]. lia.
Qed.

Lemma yields_rand_tight :
  yields rand (fun r => 0 <= r <= 2147483646 # 2147483647)%Q.
Proof.
  intros st Hst. split; [apply rand_tight; exact Hst | apply rand_state_nonneg].
Qed.

Lemma opacity_affine (c1 c2 o : Q) :
  (0 <= c1)%Q -> (0 <= c2)%Q ->
  (0 <= o <= 2147483646 # 2147483647)%Q ->
  (leastOpacity <= b64 (b64 c1 + b64 (b64 0 * b64 c2)))%Q ->
  (b64 (b64 c1 + b64 (b64 (2147483646 # 2147483647) * b64 c2)) < 1)%Q ->
  exists v, numValue64 (Lit c1 + Lit o * Lit c2)%num = Some v /\
            (leastOpacity <= v /\ v < 1)%Q.
Proof.
  intros H1 H2 [Ho Ho'] Hlo Hhi.
  exists (b64 (b64 c1 + b64 (b64 o * b64 c2))).
  split; [reflexivity |]. split.
  - eapply Qle_trans; [exact Hlo |].
    apply affine64_mono; [assumption | assumption | apply Qle_refl | exact Ho].
  - eapply Qle_lt_trans; [| exact Hhi].
    apply affine64_mono; assumption.
Qed.

(** A comparison of two closed rationals, by computation. *)
Ltac compare_values :=
  first [ apply Qle_bool_iff; vm_compute; reflexivity
        | apply Qlt_alt; vm_compute; reflexivity ].

(** ** Where colours come from, and how opaque elements are *)

Lemma index_In {A} (arr : list A) (i : Z) (a : A) :
  index arr i = Some a -> In a arr.
Proof.
  unfold index. destruct (i <? 0); [discriminate |]. apply nth_error_In.
Qed.

Lemma yields_choose_In {A} (arr : list A) :
  arr <> [] -> yields (choose arr) (fun c => exists a, c = Some a /\ In a arr).
Proof.
  intros Hne. unfold choose.
  eapply yields_bind.
  - apply yields_randInt. unfold len. destruct arr; [congruence | cbn; lia].
  - intros i Hi. apply yields_ret.
    destruct (index arr i) as [a |] eqn:E.
    + exists a. split; [reflexivity | exact (index_In _ _ _ E)].
    + exfalso. apply (proj2 (index_defined arr i)); assumption.
Qed.

Lemma yields_forFrom_bounded {A} (P : A -> Prop) (body : Z -> Rand (list A)) :
  forall n from,
    (forall i, from <= i < from + Z.of_nat n -> yields (body i) (Forall P)) ->
    yields (forFrom from n body) (Forall P).
Proof.
  induction n as [|n IH]; intros from Hbody; cbn [forFrom].
  - apply yields_ret. constructor.
  - eapply yields_bind; [apply Hbody; lia |]. intros out Hout.
    eapply yields_bind; [apply IH; intros i Hi; apply Hbody; lia |].
    intros rest Hrest.
    apply yields_ret. apply Forall_app. split; assumption.
Qed.

(** As [draw], keeping what is known of each drawn value. *)
Ltac draw_full :=
  lazymatch goal with
  | |- yields (bind (choose _) _) _ =>
      eapply yields_bind;
      [apply yields_choose_In; first [assumption | discriminate]
      | intros ? (? & -> & ?)]
  | |- yields (bind rand _) _ =>
      let H := fresh "Hr" in
      eapply yields_bind;
      [apply yields_rand_tight | intros ? H; cbv beta in H]
  | |- yields (bind (randInt _) _) _ =>
      eapply yields_bind; [apply yields_randInt_any | intros ? _]
  | |- yields (if ?b then _ else _) _ => destruct b
  | |- yields (ret _) _ => apply yields_ret
  end.

Ltac painted_elements :=
  repeat first [apply Forall_nil | apply Forall_cons];
  (split;
   [ eexists; split; [reflexivity | first [assumption | cbn; tauto]]
   | unfold opacityWithin64; cbn [elementOpacity];
     lazymatch goal with
     | |- True => exact I
     | |- exists v, numValue64 (Lit _ + Lit _ * Lit _)%num = Some v /\ _ =>
         apply opacity_affine; first [assumption | compare_values]
     | |- _ => eexists; split; [reflexivity | split; compare_values]
     end ]).

Section RendererPaint.

Variable palette : list string.
Variable size : Z.
Hypothesis palette_nonempty : palette <> [].

Lemma geometricShape_painted (i : Z) :
  yields (geometricShape palette size i) (Forall (painted palette)).
Proof.
  unfold geometricShape. cbv zeta. repeat draw_full; painted_elements.
Qed.

Lemma generateGeometric_painted :
  yields (generateGeometric palette size) (Forall (painted palette)).
Proof.
  unfold generateGeometric. draw_full. cbv zeta.
  apply yields_forLt. apply geometricShape_painted.
Qed.

Lemma organicBlob_painted (i : Z) :
  yields (organicBlob palette size i) (Forall (painted palette)).
Proof.
  unfold organicBlob. cbv zeta. do 5 draw_full.
  eapply yields_bind; [apply yields_forLt; apply blobPoint_any |].
  intros points _. draw_full. painted_elements.
Qed.

Lemma generateOrganic_painted :
  yields (generateOrganic palette size) (Forall (painted palette)).
Proof.
  unfold generateOrganic. draw_full. cbv zeta.
  apply yields_forLt. apply organicBlob_painted.
Qed.

Lemma pixelCell_painted (x y : Z) :
  yields (pixelCell palette x y) (Forall (painted palette)).
Proof.
  unfold pixelCell. cbv zeta. repeat draw_full; painted_elements.
Qed.

Lemma generatePixel_painted :
  yields (generatePixel palette size) (Forall (painted palette)).
Proof.
  unfold generatePixel, pixelLoops. cbv zeta.
  apply yields_forLt. intros x.
  apply yields_forLt. intros y. apply pixelCell_painted.
Qed.

Lemma circuitTrace_painted (i : Z) :
  yields (circuitTrace palette size i) (Forall (painted palette)).
Proof.
  unfold circuitTrace. cbv zeta. do 4 draw_full.
  eapply yields_bind; [apply circuitSegments_any |].
  intros [[xe ye] path] _. draw_full. painted_elements.
Qed.

Lemma circuitNode_painted (i : Z) :
  yields (circuitNode palette size i) (Forall (painted palette)).
Proof.
  unfold circuitNode. cbv zeta. repeat draw_full; painted_elements.
Qed.

Lemma generateCircuit_painted :
  yields (generateCircuit palette size) (Forall (painted palette)).
Proof.
  unfold generateCircuit. draw_full. cbv zeta.
  eapply yields_bind; [apply yields_forLt; apply circuitTrace_painted |].
  intros traces Ht.
  eapply yields_bind; [apply yields_forLt; apply circuitNode_painted |].
  intros nodes Hn. draw_full. apply Forall_app. split; assumption.
Qed.

Lemma stacksLayer_painted (i : Z) :
  0 <= i < 5 -> yields (stacksLayer size i) (Forall (painted stacksPalette)).
Proof.
  intros Hi.
  assert (Hcases : i = 0 \/ i = 1 \/ i = 2 \/ i = 3 \/ i = 4) by lia.
  unfold stacksLayer. cbv zeta.
  destruct Hcases as [-> | [-> | [-> | [-> | ->]]]];
    repeat draw_full; painted_elements.
Qed.

Lemma stacksParticle_painted (i : Z) :
  yields (stacksParticle size i) (Forall (painted stacksPalette)).
Proof.
  unfold stacksParticle. cbv zeta. repeat draw_full; painted_elements.
Qed.

Lemma generateStacks_painted :
  yields (generateStacks size) (Forall (painted stacksPalette)).
Proof.
  unfold generateStacks. draw_full. cbv zeta. unfold forLt.
  change (trips 5) with 5%nat.
  eapply yields_bind;
    [apply yields_forFrom_bounded; intros i Hi;
     apply stacksLayer_painted; lia |].
  intros layers Hl.
  eapply yields_bind;
    [apply yields_forFrom; apply stacksParticle_painted |].
  intros particles Hp. draw_full.
  apply Forall_app. split; [exact Hl |].
  apply Forall_app. split; [painted_elements | exact Hp].
Qed.

End RendererPaint.

(** ** The documents of [generateArt], style by style *)

Ltac eval_style_tests :=
  repeat match goal with
         | |- context [String.eqb ?a ?b] =>
             let v := eval vm_compute in (String.eqb a b) in
             change (String.eqb a b) with v
         end;
  cbv iota.

Lemma renderStyle_organic (palette : list string) (size : Z) :
  renderStyle "organic" palette size = generateOrganic palette size.
Proof. unfold renderStyle. eval_style_tests. reflexivity. Qed.

Lemma renderStyle_pixel (palette : list string) (size : Z) :
  renderStyle "pixel" palette size = generatePixel palette size.
Proof. unfold renderStyle. eval_style_tests. reflexivity. Qed.

Lemma renderStyle_circuit (palette : list string) (size : Z) :
  renderStyle "circuit" palette size = generateCircuit palette size.
Proof. unfold renderStyle. eval_style_tests. reflexivity. Qed.

Lemma renderStyle_stacks (palette : list string) (size : Z) :
  renderStyle "stacks" palette size = generateStacks size.
Proof. unfold renderStyle. eval_style_tests. reflexivity. Qed.

Lemma drawing_register_nonneg (seed : jsstring) :
  0 <= after 2 (start seed).
Proof. apply after_nonneg. apply hashString_nonneg. Qed.

(** The document of a style, with its elements named by the renderer. *)
Lemma generateArt_elements (seed : jsstring) (style : string) (size : Z) :
  exists (palette : list string) (d : document),
    drawnPalette seed = Some palette /\
    palette <> [] /\
    generateArt seed style size = Returns d /\
    elements d = fst (renderStyle style palette size (after 2 (start seed))).
Proof.
  destruct (generateArt_spec seed style size) as (p & Hp & Hin & _ & E & _).
  destruct (PALETTES_entry p Hin) as [Hne _].
  exists p. eexists. split; [exact Hp |]. split; [exact Hne |].
  split; [exact E | reflexivity].
Qed.

Lemma generatePixel_cells (palette : list string) (size : Z) (st : rng) :
  snd (generatePixel palette size st)
  = after (List.length (pixelCells size)
           + 2 * List.length (fst (generatePixel palette size st))) st /\
  (List.length (fst (generatePixel palette size st))
   <= List.length (pixelCells size))%nat /\
  Forall (fun e => exists c fill opacity,
              In c (pixelCells size) /\ e = cellRect c fill opacity /\
              0 <= 20 * fst c < size /\ 0 <= 20 * snd c < size)
         (fst (generatePixel palette size st)).
Proof.
  unfold generatePixel. rewrite pixelLoops_forEach, pixelCells_grid.
  set (n := Z.to_nat ((size + 19) / 20)).
  destruct (forEach (gridCells n) _ st) as [out st'] eqn:E.
  destruct (forEach_pixelCell palette _ _ _ _ E) as (Hst & Hlen & Hall).
  cbn [fst snd]. split; [exact Hst |]. split; [exact Hlen |].
  eapply Forall_impl; [| exact Hall].
  intros e (c & f & o & Hin & ->). exists c, f, o.
  split; [exact Hin |]. split; [reflexivity |].
  apply gridCells_bounds in Hin. unfold n in Hin.
  assert (20 * ((size + 19) / 20) <= size + 19)
    by (apply Z.mul_div_le; lia).
  lia.
Qed.

(** X5.  The number of elements a document carries is fixed by the style up to
    one draw: 8 to 19 for Geometric, 5 to 12 for Organic, an even number
    from 40 to 78 for Circuit, always 26 for Stacks, and for Pixel at most
    one per grid cell. *)
Theorem element_counts :
  forall (seed : jsstring) (size : Z),
    (exists d, generateArt seed "geometric" size = Returns d /\
               (8 <= List.length (elements d) <= 19)%nat) /\
    (exists d, generateArt seed "organic" size = Returns d /\
               (5 <= List.length (elements d) <= 12)%nat) /\
    (exists d, generateArt seed "circuit" size = Returns d /\
               (40 <= List.length (elements d) <= 78)%nat /\
               Nat.even (List.length (elements d)) = true) /\
    (exists d, generateArt seed "stacks" size = Returns d /\
               List.length (elements d) = 26%nat) /\
    (exists d, generateArt seed "pixel" size = Returns d /\
               (List.length (elements d)
                <= Z.to_nat ((size + 19) / 20) * Z.to_nat ((size + 19) / 20))%nat).
Proof.
  intros seed size.
  assert (H0 := drawing_register_nonneg seed).
  repeat split.
  - destruct (generateArt_elements seed "geometric" size)
      as (p & d & _ & _ & E & Hel).
    exists d. split; [exact E |]. rewrite Hel, renderStyle_geometric.
    apply (generateGeometric_count p size _ H0).
  - destruct (generateArt_elements seed "organic" size)
      as (p & d & _ & _ & E & Hel).
    exists d. split; [exact E |]. rewrite Hel, renderStyle_organic.
    apply (generateOrganic_count p size _ H0).
  - destruct (generateArt_elements seed "circuit" size)
      as (p & d & _ & _ & E & Hel).
    exists d. split; [exact E |]. rewrite Hel, renderStyle_circuit.
    apply (generateCircuit_count p size _ H0).
  - destruct (generateArt_elements seed "stacks" size)
      as (p & d & _ & _ & E & Hel).
    exists d. split; [exact E |]. rewrite Hel, renderStyle_stacks.
    destruct (generateStacks_tags size _ H0) as [Htags _].
    rewrite <- (length_map elementTag), Htags. reflexivity.
  - destruct (generateArt_elements seed "pixel" size)
      as (p & d & _ & _ & E & Hel).
    exists d. split; [exact E |]. rewrite Hel, renderStyle_pixel.
    destruct (generatePixel_cells p size (after 2 (start seed)))
      as (_ & Hlen & _).
    rewrite pixelCells_grid, gridCells_length in Hlen. exact Hlen.
Qed.

Lemma renderStyle_painted (style : string) (palette : list string) (size : Z) :
  palette <> [] ->
  yields (renderStyle style palette size)
         (Forall (painted (if (style =? "stacks")%string
                          then stacksPalette else palette))).
Proof.
  intros Hne.
  destruct (String.eqb_spec style "stacks") as [-> | Hs].
  - rewrite renderStyle_stacks. apply generateStacks_painted.
  - unfold renderStyle.
    destruct (String.eqb_spec style "stacks") as [-> | _]; [congruence |].
    repeat match goal with |- yields (if ?b then _ else _) _ => destruct b end;
      auto using generateGeometric_painted, generateOrganic_painted,
                 generatePixel_painted, generateCircuit_painted.
Qed.

(** X6.  Every element of a document is coloured from the palette the first draw
    selected, except in the Stacks style, where every element is coloured
    from the fixed Stacks palette. *)
Theorem colours_from_palette :
  forall (seed : jsstring) (style : string) (size : Z),
  exists (palette : list string) (d : document),
    drawnPalette seed = Some palette /\
    generateArt seed style size = Returns d /\
    Forall (colourFrom (if (style =? "stacks")%string
                        then stacksPalette else palette)) (elements d).
Proof.
  intros seed style size.
  destruct (generateArt_elements seed style size)
    as (p & d & Hp & Hne & E & Hel).
  exists p, d. split; [exact Hp |]. split; [exact E |]. rewrite Hel.
  destruct (renderStyle_painted style p size Hne _
              (drawing_register_nonneg seed)) as [H _].
  eapply Forall_impl; [| exact H]. intros e [Hc _]. exact Hc.
Qed.

Lemma yields_forFrom_Exists {A} (P : A -> Prop) (body : Z -> Rand (list A)) :
  forall n from k,
    from <= k < from + Z.of_nat n ->
    (forall i, from <= i < from + Z.of_nat n ->
               yields (body i) (fun _ => True)) ->
    yields (body k) (Exists P) ->
    yields (forFrom from n body) (Exists P).
Proof.
  induction n as [|n IH]; intros from k Hk Hall Hex; cbn [forFrom].
  - cbn in Hk. lia.
  - destruct (Z.eq_dec k from) as [-> | NE].
    + eapply yields_bind; [exact Hex |]. intros out Hout.
      eapply yields_bind.
      * apply (yields_forFrom_bounded (fun _ => True)).
        intros i Hi. eapply yields_weaken; [apply Hall; lia |].
        intros l _. apply Forall_forall. trivial.
      * intros rest _. apply yields_ret. apply Exists_app. left. exact Hout.
    + eapply yields_bind; [apply Hall; lia |]. intros out _.
      eapply yields_bind.
      * apply (IH (from + 1) k);
          [lia | intros i Hi; apply Hall; lia | exact Hex].
      * intros rest Hrest. apply yields_ret. apply Exists_app. right.
        exact Hrest.
Qed.

(** The fifth layer: [0.7 - 4 * 0.1] is not 0.3 in binary64. *)
Lemma stacksLayer_least (size : Z) :
  yields (stacksLayer size 4) (Exists (opacityIs leastOpacity)).
Proof.
  unfold stacksLayer. cbv zeta. repeat draw_full.
  apply Exists_cons_hd. eexists. split; [reflexivity |].
  vm_compute. reflexivity.
Qed.

Lemma generateStacks_least (size : Z) :
  yields (generateStacks size) (Exists (opacityIs leastOpacity)).
Proof.
  unfold generateStacks. draw_full. cbv zeta. unfold forLt.
  change (trips 5) with 5%nat.
  eapply yields_bind.
  - apply (yields_forFrom_Exists (opacityIs leastOpacity)
             (stacksLayer size) 5 0 4);
      [cbn; lia | | apply stacksLayer_least].
    intros i Hi.
    eapply yields_weaken; [apply (stacksLayer_painted size i); lia | trivial].
  - intros layers Hl.
    eapply yields_bind; [apply yields_forFrom; apply stacksParticle_painted |].
    intros particles _. draw_full. apply Exists_app. left. exact Hl.
Qed.

(** X7.  Every opacity written into a document, in every style, is computed in
    binary64 and lies between 0.29999999999999993 (the value of
    [0.7 - 4 * 0.1], just below 0.3) and 1, the latter excluded; the lower
    end is reached: the fifth layer of every Stacks document has it. *)
Theorem opacities_in_range :
  (forall (seed : jsstring) (style : string) (size : Z),
    exists d : document,
      generateArt seed style size = Returns d /\
      Forall (opacityWithin64 leastOpacity 1) (elements d)) /\
  (forall (seed : jsstring) (size : Z),
    exists d : document,
      generateArt seed "stacks" size = Returns d /\
      Exists (opacityIs leastOpacity) (elements d)) /\
  (leastOpacity < 0.3)%Q.
Proof.
  split; [| split].
  - intros seed style size.
    destruct (generateArt_elements seed style size)
      as (p & d & Hp & Hne & E & Hel).
    exists d. split; [exact E |]. rewrite Hel.
    destruct (renderStyle_painted style p size Hne _
                (drawing_register_nonneg seed)) as [H _].
    eapply Forall_impl; [| exact H]. intros e [_ Ho]. exact Ho.
  - intros seed size.
    destruct (generateArt_elements seed "stacks" size)
      as (p & d & _ & _ & E & Hel).
    exists d. split; [exact E |]. rewrite Hel, renderStyle_stacks.
    apply (generateStacks_least size _ (drawing_register_nonneg seed)).
  - compare_values.
Qed.

(** X8.  The Stacks document has the same shape for every seed and size: five
    rectangles, the glyph, twenty circles, in this order; and the renderer
    makes exactly 116 draws. *)
Theorem stacks_structure :
  forall (seed : jsstring) (size : Z) (st : rng),
    (exists d, generateArt seed "stacks" size = Returns d /\
               map elementTag (elements d)
               = repeat Trect 5 ++ [Ttext] ++ repeat Tcircle 20) /\
    snd (generateStacks size st) = after 116 st.
Proof.
  intros seed size st. split.
  - destruct (generateArt_elements seed "stacks" size)
      as (p & d & _ & _ & E & Hel).
    exists d. split; [exact E |]. rewrite Hel, renderStyle_stacks.
    apply (generateStacks_tags size _ (drawing_register_nonneg seed)).
  - apply generateStacks_draws.
Qed.


(** * The routes *)

Lemma assoc_None {A} (key : string) (l : list (string * A)) :
  assoc key l = None -> ~ In key (map fst l).
Proof.
  induction l as [|[k v] l IH]; cbn [assoc map fst In]; intros H.
  - tauto.
  - destruct (String.eqb_spec k key) as [-> | Hk]; [discriminate |].
    intros [Heq | Hin]; [congruence | exact (IH H Hin)].
Qed.

Lemma assoc_In {A} (key : string) (l : list (string * A)) :
  In key (map fst l) -> exists v, assoc key l = Some v.
Proof.
  induction l as [|[k v] l IH]; cbn [assoc map fst In]; intros H.
  - contradiction.
  - destruct (String.eqb_spec k key) as [-> | Hk]; [eexists; reflexivity |].
    destruct H as [Heq | Hin]; [congruence | exact (IH Hin)].
Qed.

Lemma assoc_Some_In {A} (key : string) (l : list (string * A)) (v : A) :
  assoc key l = Some v -> In key (map fst l).
Proof.
  induction l as [|[k w] l IH]; cbn [assoc map fst In]; intros H.
  - discriminate.
  - destruct (String.eqb_spec k key) as [-> | Hk];
      [left; reflexivity | right; exact (IH H)].
Qed.

Lemma styleFound_false (style : string) :
  styleFound style = false ->
  ~ In style catalogKeys /\ ~ In style (map fst ObjectPrototype).
Proof.
  unfold styleFound, getStyle, catalogKeys. intros H.
  destruct (assoc style STYLES) as [info |] eqn:E1; [discriminate |].
  destruct (assoc style ObjectPrototype) as [p |] eqn:E2; [discriminate |].
  split; apply assoc_None; assumption.
Qed.

Lemma generateArt_returns (seed : jsstring) (style : string) (size : Z) :
  exists d, generateArt seed style size = Returns d.
Proof.
  destruct (generateArt_spec seed style size) as (p & _ & _ & _ & E & _).
  eexists. exact E.
Qed.

(** X12.  GET /preview.  The route answers 400 exactly for an identifier that
    neither the catalog nor [Object.prototype] has, hands "faces" to the
    face service without drawing, and for every other identifier sends the
    document of [generateArt] at size 400; it never fails while drawing. *)
Theorem preview_responses :
  forall (style : string) (seed : jsstring),
    match preview style seed with
    | PreviewInvalidStyle status available =>
        status = 400 /\
        available = ["geometric"; "organic"; "pixel"; "circuit"; "stacks";
                     "faces"]%string /\
        ~ In style catalogKeys /\ ~ In style (map fst ObjectPrototype)
    | PreviewFace status s =>
        status = 200 /\ style = "faces"%string /\ s = seed
    | PreviewArt status svg =>
        status = 200 /\ style <> "faces"%string /\
        (In style catalogKeys \/ In style (map fst ObjectPrototype)) /\
        exists d, svg = Returns d /\ generateArt seed style 400 = Returns d
    end.
Proof.
  intros style seed. unfold preview.
  destruct (styleFound style) eqn:Hf; cbn [negb].
  - destruct (String.eqb_spec style "faces") as [-> | Hne].
    + repeat split.
    + split; [reflexivity |]. split; [exact Hne |]. split.
      * unfold styleFound, getStyle in Hf. unfold catalogKeys.
        destruct (assoc style STYLES) as [info |] eqn:E1.
        -- left. exact (assoc_Some_In _ _ _ E1).
        -- right. destruct (assoc style ObjectPrototype) as [pr |] eqn:E2;
             [exact (assoc_Some_In _ _ _ E2) | discriminate].
      * unfold generateArtDefault.
        destruct (generateArt_returns seed style 400) as [d E].
        exists d. split; exact E.
  - split; [reflexivity |]. split; [reflexivity |].
    apply styleFound_false. exact Hf.
Qed.

(** X13.  An identifier that [STYLES] only inherits, like "constructor" or
    "toString", passes the test of the route and is drawn by the Geometric
    renderer. *)
Theorem preview_inherited_key :
  forall (style : string) (seed : jsstring),
    In style (map fst ObjectPrototype) ->
    exists d, preview style seed = PreviewArt 200 (Returns d) /\
              generateArt seed "geometric" 400 = Returns d.
Proof.
  intros style seed Hin.
  assert (Hnr : ~ In style recognized /\ style <> "faces"%string /\
                styleFound style = true).
  { cbn [map fst ObjectPrototype In] in Hin.
    repeat (destruct Hin as [<- | Hin];
            [split; [cbn; intuition discriminate
                    | split; [discriminate | reflexivity]] |]).
    contradiction. }
  destruct Hnr as (Hnr & Hnf & Hf).
  unfold preview. rewrite Hf. cbn [negb].
  destruct (String.eqb_spec style "faces") as [-> | _]; [congruence |].
  unfold generateArtDefault.
  destruct (generateArt_spec seed style 400) as (p & Hp & _ & _ & E & _).
  destruct (generateArt_spec seed "geometric" 400)
    as (p' & Hp' & _ & _ & E' & _).
  assert (p' = p) by congruence. subst p'.
  rewrite renderStyle_default in E by exact Hnr.
  rewrite renderStyle_geometric in E'.
  eexists. split; [rewrite E; reflexivity | exact E'].
Qed.

Lemma preview_inherited_key_witness :
  In "constructor"%string (map fst ObjectPrototype) /\
  exists d, preview "constructor" (units "abc") = PreviewArt 200 (Returns d) /\
            generateArt (units "abc") "geometric" 400 = Returns d.
Proof.
  assert (H : In "constructor"%string (map fst ObjectPrototype))
    by (left; reflexivity).
  split; [exact H |].
  apply (preview_inherited_key "constructor" (units "abc") H).
Defined.

(** ** POST /forge *)

Lemma checkAddresses_inr (items : list (option string)) :
  forall addresses,
    checkAddresses items = inr addresses ->
    items = map Some addresses /\ Forall stacksAddress addresses.
Proof.
  induction items as [|[addr |] items IH]; intros addresses H;
    cbn [checkAddresses] in H.
  - injection H as <-. split; [reflexivity | constructor].
  - destruct (String.prefix "SP" addr) eqn:Hsp;
      destruct (String.prefix "ST" addr) eqn:Hst;
      cbn [negb andb] in H; try discriminate;
      (destruct (checkAddresses items) as [r | ok]; [discriminate |];
       injection H as <-;
       destruct (IH ok eq_refl) as [-> Hall];
       split; [reflexivity |];
       constructor; [unfold stacksAddress; tauto | exact Hall]).
  - discriminate.
Qed.

Lemma checkAddresses_inl (items : list (option string)) :
  forall r,
    checkAddresses items = inl r ->
    (exists msg, r = ForgeError 400 msg) \/ (exists e, r = ForgeThrows e).
Proof.
  induction items as [|[addr |] items IH]; intros r H;
    cbn [checkAddresses] in H.
  - discriminate.
  - destruct (negb (String.prefix "SP" addr)
              && negb (String.prefix "ST" addr)).
    + injection H as <-. left. eexists. reflexivity.
    + destruct (checkAddresses items) as [r' | ok]; [| discriminate].
      injection H as <-. apply IH. reflexivity.
  - injection H as <-. right. eexists. reflexivity.
Qed.

Lemma checkAddresses_complete (addresses : list string) :
  Forall stacksAddress addresses ->
  checkAddresses (map Some addresses) = inr addresses.
Proof.
  induction 1 as [|addr l [Hsp | Hst] _ IH]; cbn [map checkAddresses].
  - reflexivity.
  - rewrite Hsp, IH. reflexivity.
  - rewrite Hst, IH. rewrite andb_false_r. reflexivity.
Qed.

Lemma satsCost_exact (n : Z) : satsCost n = 100 + 10 * n.
Proof.
  unfold satsCost, totalCost, baseFee, perNft.
  unfold Qceiling, Qfloor, Qdiv, Qinv, Qmult, Qopp, inject_Z.
  cbn [Qnum Qden]. change (Z.pos (1 * 100)) with 100.
  Z.to_euclidean_division_equations. lia.
Qed.

(** X14.  What the route has checked when it asks for payment or goes on to
    create the collection: the name is a non-empty string, the style is
    found in [STYLES], there are 1 to 10000 recipients, all of them strings
    that start with SP or ST; the cost is 10000 + 1000 per recipient, and
    the amount in sats is a hundredth of it.  Payment is asked for exactly
    when the header is absent or empty. *)
Theorem forge_checked :
  forall (paymentTx : option string) (body : jsbody),
    match forge paymentTx body with
    | ForgePaymentRequired status cost sats n =>
        status = 402 /\
        (paymentTx = None \/ paymentTx = Some ""%string) /\
        1 <= n <= 10000 /\
        cost = 10000 + 1000 * n /\ 100 * sats = cost /\
        exists name description style addresses,
          body = BodyMembers (Str name) description style
                             (Array (map Some addresses)) /\
          name <> ""%string /\ truthy style = true /\
          styleFound (propertyKey style) = true /\
          len addresses = n /\ Forall stacksAddress addresses
    | ForgePaid name description style addresses tx cost =>
        paymentTx = Some tx /\ tx <> ""%string /\
        body = BodyMembers (Str name) description style
                           (Array (map Some addresses)) /\
        name <> ""%string /\ truthy style = true /\
        styleFound (propertyKey style) = true /\
        1 <= len addresses <= 10000 /\
        Forall stacksAddress addresses /\
        cost = 10000 + 1000 * len addresses
    | ForgeError status _ => status = 400
    | ForgeThrows _ => True
    end.
Proof.
  intros paymentTx body. unfold forge.
  destruct body as [| | name description style recipients]; try easy.
  destruct name as [| name | t k]; cbn [truthy isString negb orb]; try easy.
  2: { destruct t; reflexivity. }
  destruct (String.eqb_spec name "") as [-> | Hname]; cbn [negb orb];
    [reflexivity |].
  destruct (truthy style) eqn:Hts; cbn [negb orb]; [| reflexivity].
  destruct (styleFound (propertyKey style)) eqn:Hsf; cbn [negb];
    [| reflexivity].
  destruct recipients as [t | items]; [reflexivity |].
  destruct (Z.ltb_spec (len items) 1) as [Hlt | Hge]; [reflexivity |].
  destruct (Z.ltb_spec 10000 (len items)) as [Hgt | Hle]; [reflexivity |].
  destruct (checkAddresses items) as [r | addresses] eqn:Hc.
  - (* the loop ends the request *)
    destruct (checkAddresses_inl items r Hc) as [[msg ->] | [e ->]];
      [reflexivity | exact I].
  - destruct (checkAddresses_inr items addresses Hc) as [-> Hall].
    assert (Hlen : len (map Some addresses) = len addresses)
      by (unfold len; rewrite length_map; reflexivity).
    rewrite Hlen in *.
    assert (Hsats := satsCost_exact (len addresses)).
    assert (Hcost : totalCost (len addresses) = 10000 + 1000 * len addresses)
      by (unfold totalCost, baseFee, perNft; lia).
    cbn [propertyKey].
    destruct paymentTx as [tx |].
    + destruct (String.eqb_spec tx "") as [-> | Htx].
      * split; [reflexivity |]. split; [right; reflexivity |].
        split; [lia |]. split; [exact Hcost |]. split; [lia |].
        exists name, description, style, addresses. repeat split; assumption.
      * repeat split; try assumption; lia.
    + split; [reflexivity |]. split; [left; reflexivity |].
      split; [lia |]. split; [exact Hcost |]. split; [lia |].
      exists name, description, style, addresses. repeat split; assumption.
Qed.

(** X15.  A request with a non-empty string name, a style of the catalog and 1 to
    10000 recipients that all start with SP or ST is never turned down:
    without payment header the route answers 402 with the cost, with one it
    goes on to create the collection. *)
Theorem forge_accepts :
  forall (name style tx : string) (description : jsvalue)
         (addresses : list string),
    name <> ""%string ->
    In style catalogKeys ->
    1 <= len addresses <= 10000 ->
    Forall stacksAddress addresses ->
    tx <> ""%string ->
    let body := BodyMembers (Str name) description (Str style)
                            (Array (map Some addresses)) in
    forge None body
    = ForgePaymentRequired 402 (10000 + 1000 * len addresses)
                           (100 + 10 * len addresses) (len addresses) /\
    forge (Some tx) body
    = ForgePaid name description (Str style) addresses tx
                (10000 + 1000 * len addresses).
Proof.
  intros name style tx description addresses Hname Hstyle Hn Hall Htx body.
  assert (Hlen : len (map Some addresses) = len addresses)
    by (unfold len; rewrite length_map; reflexivity).
  assert (Hts : truthy (Str style) = true).
  { cbn [truthy]. destruct (String.eqb_spec style "") as [-> | _];
      [| reflexivity].
    exfalso. cbn in Hstyle. intuition discriminate. }
  assert (Hsf : styleFound style = true).
  { unfold styleFound, getStyle.
    destruct (assoc_In style STYLES Hstyle) as [info ->]. reflexivity. }
  assert (Hcost : totalCost (len addresses) = 10000 + 1000 * len addresses)
    by (unfold totalCost, baseFee, perNft; lia).
  unfold body, forge. cbn [truthy isString propertyKey].
  destruct (String.eqb_spec name "") as [-> | _]; [congruence |].
  cbn [truthy] in Hts. rewrite Hts, Hsf. cbn [negb orb].
  rewrite Hlen.
  destruct (Z.ltb_spec (len addresses) 1); [lia |].
  destruct (Z.ltb_spec 10000 (len addresses)); [lia |].
  rewrite (checkAddresses_complete addresses Hall).
  rewrite satsCost_exact, Hcost.
  destruct (String.eqb_spec tx "") as [-> | _]; [congruence |].
  split; reflexivity.
Qed.

Lemma forge_accepts_witness :
  forge None (BodyMembers (Str "Genesis") Undefined (Str "pixel")
                (Array [Some "SP2J6ZY48GV1EZ5V2V5RB9MP66SW86PYKKNRV9EJ7";
                        Some "ST000000000000000000002AMW42H"]))%string
  = ForgePaymentRequired 402 12000 120 2.
Proof.
  apply (forge_accepts "Genesis" "pixel" "0xabc" Undefined
           ["SP2J6ZY48GV1EZ5V2V5RB9MP66SW86PYKKNRV9EJ7";
            "ST000000000000000000002AMW42H"]%string).
  - discriminate.
  - cbn. tauto.
  - cbn. lia.
  - repeat constructor; unfold stacksAddress; cbn; tauto.
  - discriminate.
Defined.

(** ** GET /metadata and GET /image *)

(** X16.  The metadata route answers 404 when the collection is not stored and
    400 unless the token id parses to a number from 1 to the supply; the
    attributes it sends otherwise are the traits of the seed
    [collectionId-tokenId], five of them, all with a value. *)
Theorem metadata_responses :
  forall (parseInt : jsstring -> option Z) (stored : option Collection)
         (collectionId tokenId : jsstring),
    match metadata parseInt stored collectionId tokenId with
    | MetadataNotFound status => status = 404 /\ stored = None
    | MetadataInvalidToken status =>
        status = 400 /\
        exists c, stored = Some c /\
                  (parseInt tokenId = None \/
                   exists k, parseInt tokenId = Some k /\
                             (k < 1 \/ collectionSupply c < k))
    | Metadata k style attributes =>
        exists c, stored = Some c /\
                  parseInt tokenId = Some k /\
                  1 <= k <= collectionSupply c /\
                  style = collectionStyle c /\
                  attributes
                  = generateTraits (tokenSeed collectionId tokenId) style /\
                  List.length attributes = 5%nat /\
                  Forall (fun t => value t <> None) attributes
    end.
Proof.
  intros parseInt stored collectionId tokenId. unfold metadata.
  destruct stored as [c |]; [| split; reflexivity].
  destruct (parseInt tokenId) as [k |] eqn:Hk.
  - destruct (Z.ltb_spec k 1) as [Hlt | Hge]; cbn [orb].
    + split; [reflexivity |]. exists c. split; [reflexivity |].
      right. exists k. split; [reflexivity | left; exact Hlt].
    + destruct (Z.ltb_spec (collectionSupply c) k) as [Hgt | Hle].
      * split; [reflexivity |]. exists c. split; [reflexivity |].
        right. exists k. split; [reflexivity | right; exact Hgt].
      * exists c. cbv zeta.
        destruct (generateTraits_shape
                    (tokenSeed collectionId tokenId) (collectionStyle c))
          as (Hlen & _ & _ & Hdef & _).
        repeat split; try assumption; lia.
  - split; [reflexivity |]. exists c. split; [reflexivity |].
    left. reflexivity.
Qed.

(** X17.  For a stored collection of any style but "faces" the image route never
    looks at the token number: it draws the seed [collectionId-tokenId] for
    every token id, also one that the metadata route turns down. *)
Theorem image_any_token :
  forall (parseInt : jsstring -> option Z) (c : Collection)
         (collectionId tokenId : jsstring),
    collectionStyle c <> "faces"%string ->
    exists d,
      image parseInt (Some c) collectionId tokenId = ImageArt 200 (Returns d) /\
      generateArt (tokenSeed collectionId tokenId) (collectionStyle c) 400
      = Returns d.
Proof.
  intros parseInt c collectionId tokenId Hstyle. unfold image. cbv zeta.
  destruct (String.eqb_spec (collectionStyle c) "faces") as [E | _];
    [congruence |].
  unfold generateArtDefault.
  destruct (generateArt_returns (tokenSeed collectionId tokenId)
              (collectionStyle c) 400) as [d E].
  exists d. rewrite E. split; reflexivity.
Qed.

Lemma image_any_token_witness :
  collectionStyle (mkCollection "pixel" 3 ["SP1"; "SP2"; "SP3"]%string)
  <> "faces"%string /\
  metadata (fun _ => None)
    (Some (mkCollection "pixel" 3 ["SP1"; "SP2"; "SP3"]%string))
    (units "ab12cd34") (units "zero")
  = MetadataInvalidToken 400 /\
  exists d,
    image (fun _ => None)
      (Some (mkCollection "pixel" 3 ["SP1"; "SP2"; "SP3"]%string))
      (units "ab12cd34") (units "zero")
    = ImageArt 200 (Returns d) /\
    generateArt (tokenSeed (units "ab12cd34") (units "zero")) "pixel" 400
    = Returns d.
Proof.
  assert (H : collectionStyle
                (mkCollection "pixel" 3 ["SP1"; "SP2"; "SP3"]%string)
              <> "faces"%string) by discriminate.
  split; [exact H |]. split; [reflexivity |].
  apply (image_any_token (fun _ => None)
           (mkCollection "pixel" 3 ["SP1"; "SP2"; "SP3"]%string)
           (units "ab12cd34") (units "zero") H).
Defined.

(** X18.  For a stored "faces" collection the image route hands token k to the
    face service with the k-th recipient's address when k is a position in
    the recipient list holding a non-empty address; for any other token id
    it sends a Geometric drawing of the seed, not an error. *)
Theorem image_faces :
  forall (parseInt : jsstring -> option Z) (c : Collection)
         (collectionId tokenId : jsstring),
    collectionStyle c = "faces"%string ->
    match image parseInt (Some c) collectionId tokenId with
    | ImageNotFound _ => False
    | ImageFace status address =>
        status = 200 /\ address <> ""%string /\
        exists k, parseInt tokenId = Some k /\
                  1 <= k <= len (collectionRecipients c) /\
                  index (collectionRecipients c) (k - 1) = Some address
    | ImageArt status svg =>
        status = 200 /\
        recipientOf c (parseInt tokenId) = None /\
        exists d, svg = Returns d /\
                  generateArt (tokenSeed collectionId tokenId) "geometric" 400
                  = Returns d
    end.
Proof.
  intros parseInt c collectionId tokenId Hstyle. unfold image. cbv zeta.
  rewrite Hstyle. change ("faces" =? "faces")%string with true. cbv iota.
  destruct (recipientOf c (parseInt tokenId)) as [address |] eqn:Hr.
  - unfold recipientOf in Hr.
    destruct (parseInt tokenId) as [k |]; [| discriminate].
    destruct (index (collectionRecipients c) (k - 1)) as [a |] eqn:Hi;
      [| discriminate].
    destruct (String.eqb_spec a "") as [-> | Ha]; [discriminate |].
    injection Hr as <-.
    split; [reflexivity |]. split; [exact Ha |].
    exists k. split; [reflexivity |]. split; [| exact Hi].
    assert (Hb : 0 <= k - 1 < len (collectionRecipients c)).
    { apply index_defined. congruence. }
    lia.
  - split; [reflexivity |]. split; [reflexivity |].
    unfold generateArtDefault.
    set (seed := tokenSeed collectionId tokenId).
    destruct (generateArt_spec seed "faces" 400) as (p & Hp & _ & _ & E & _).
    destruct (generateArt_spec seed "geometric" 400)
      as (p' & Hp' & _ & _ & E' & _).
    assert (p' = p) by congruence. subst p'.
    rewrite renderStyle_default in E
      by (cbn; intuition discriminate).
    rewrite renderStyle_geometric in E'.
    eexists. split; [exact E | exact E'].
Qed.

Lemma image_faces_witness :
  collectionStyle (mkCollection "faces" 2 ["SP1"; "SP2"]%string)
  = "faces"%string /\
  match image (fun _ => Some 2)
          (Some (mkCollection "faces" 2 ["SP1"; "SP2"]%string))
          (units "ab12cd34") (units "2") with
  | ImageFace status address => status = 200 /\ address = "SP2"%string
  | _ => False
  end.
Proof.
  assert (H : collectionStyle (mkCollection "faces" 2 ["SP1"; "SP2"]%string)
              = "faces"%string) by reflexivity.
  split; [exact H |].
  assert (T := image_faces (fun _ => Some 2)
                 (mkCollection "faces" 2 ["SP1"; "SP2"]%string)
                 (units "ab12cd34") (units "2") H).
  destruct (image (fun _ => Some 2)
              (Some (mkCollection "faces" 2 ["SP1"; "SP2"]%string))
              (units "ab12cd34") (units "2")) as [st | st address | st svg].
  - exact T.
  - destruct T as (Hst & _ & k & Hk & _ & Hi).
    injection Hk as <-. cbn in Hi. injection Hi as <-.
    split; [exact Hst | reflexivity].
  - destruct T as (_ & Hr & _). cbn in Hr. discriminate Hr.
Defined.

(** * Traits and art of one seed *)

Lemma choose_eq {A} (arr : list A) (st : rng) :
  choose arr st = (index arr (fst (randInt (len arr) st)), after 1 st).
Proof.
  unfold choose, randInt, bind, ret. cbn [after].
  destruct (rand st) as [r st']. reflexivity.
Qed.

(** X4.  [generateArt] and [generateTraits] start the same sequence and both
    begin with two lookups in lists of five: the rarity has the position in
    its list that the palette has in the catalog, and the background theme
    the position that the background colour has in the palette. *)
Theorem traits_mirror_palette :
  forall (seed : jsstring) (style : string),
  exists i j : Z,
    0 <= i < 5 /\ 0 <= j < 5 /\
    drawnPalette seed = index PALETTES i /\
    nth_error (generateTraits seed style) 1
    = Some (mkTrait "Rarity" (index rarities i)) /\
    (forall palette, drawnPalette seed = Some palette ->
                     drawnBgColor seed palette = index palette j) /\
    nth_error (generateTraits seed style) 2
    = Some (mkTrait "Background" (index backgrounds j)).
Proof.
  intros seed style.
  assert (H0 : 0 <= start seed) by apply hashString_nonneg.
  assert (H1 : 0 <= after 1 (start seed)) by (apply after_nonneg; exact H0).
  exists (fst (randInt 5 (start seed))), (fst (randInt 5 (after 1 (start seed)))).
  split; [apply (yields_randInt 5); [lia | exact H0] |].
  split; [apply (yields_randInt 5); [lia | exact H1] |].
  split; [unfold drawnPalette; rewrite choose_eq; reflexivity |].
  split.
  { unfold generateTraits. fold (start seed). rewrite !choose_eq.
    reflexivity. }
  split.
  { intros palette Hp. unfold drawnBgColor. rewrite choose_eq. cbn [fst].
    assert (Hin : In palette PALETTES).
    { apply (choose_In PALETTES (start seed)). exact Hp. }
    assert (Hlen : len palette = 5).
    { cbn in Hin.
      repeat (destruct Hin as [<- | Hin]; [reflexivity |]). contradiction. }
    rewrite Hlen. reflexivity. }
  unfold generateTraits. fold (start seed). rewrite !choose_eq.
  reflexivity.
Qed.

(** * The canvas size and the composition *)

Lemma forFrom_same (b b' : Z -> Rand (list element)) :
  (forall i, sameComposition (b i) (b' i)) ->
  forall n from, sameComposition (forFrom from n b) (forFrom from n b').
Proof.
  intros Hb. induction n as [|n IH]; intros from st; cbn [forFrom].
  - split; reflexivity.
  - unfold bind, ret. destruct (Hb from st) as [Hm Hs].
    destruct (b from st) as [out st1], (b' from st) as [out' st1'].
    cbn [fst snd] in Hm, Hs. subst st1'.
    destruct (IH (from + 1) st1) as [Hm' Hs'].
    destruct (forFrom (from + 1) n b st1) as [rest st2],
             (forFrom (from + 1) n b' st1) as [rest' st2'].
    cbn [fst snd] in *. subst st2'.
    split; [rewrite !map_app, Hm, Hm'; reflexivity | reflexivity].
Qed.

(** Unfolds the draws of a loop body on both sides and follows them. *)
Ltac follow_draws :=
  unfold choose, randInt, bind, ret; cbv zeta;
  repeat match goal with
         | |- context [rand ?s] =>
             let r := fresh "r" in
             let s' := fresh "st" in
             destruct (rand s) as [r s']; cbn [fst snd]
         | |- context [if Js.gt ?a ?b then _ else _] => destruct (Js.gt a b)
         end.

Section SizeIndependence.

Variable palette : list string.
Variables size size' : Z.

Lemma geometricShape_same (i : Z) :
  sameComposition (geometricShape palette size i)
                  (geometricShape palette size' i).
Proof.
  intros st. unfold geometricShape. follow_draws; split; reflexivity.
Qed.

Lemma generateGeometric_same :
  sameComposition (generateGeometric palette size)
                  (generateGeometric palette size').
Proof.
  intros st. unfold generateGeometric, randInt, bind, ret. cbv zeta.
  destruct (rand st) as [r st1]. unfold forLt.
  apply forFrom_same. apply geometricShape_same.
Qed.

Lemma blobPoints_draws (cx cy r : num) :
  consumes (forLt 6 (blobPoint cx cy r)) 6.
Proof.
  unfold forLt. change (trips 6) with 6%nat.
  apply (consumes_forFrom _ 1). intros j.
  eapply consumes_change; [unfold blobPoint; cbv zeta; repeat count |].
  reflexivity.
Qed.

Lemma organicBlob_same (i : Z) :
  sameComposition (organicBlob palette size i) (organicBlob palette size' i).
Proof.
  intros st. unfold organicBlob. unfold choose, randInt, bind, ret. cbv zeta.
  destruct (rand st) as [r1 st1].
  destruct (rand st1) as [r2 st2].
  destruct (rand st2) as [r3 st3].
  destruct (rand st3) as [r4 st4].
  destruct (rand st4) as [r5 st5]. cbn [fst snd].
  assert (H := blobPoints_draws (scaled size r3) (scaled size r4)
                 (Lit 40 + Lit r5 * Lit 100)%num st5).
  assert (H' := blobPoints_draws (scaled size' r3) (scaled size' r4)
                  (Lit 40 + Lit r5 * Lit 100)%num st5).
  destruct (forLt 6 (blobPoint (scaled size r3) (scaled size r4) _) st5)
    as [pts st6].
  destruct (forLt 6 (blobPoint (scaled size' r3) (scaled size' r4) _) st5)
    as [pts' st6'].
  cbn [fst snd] in *. subst. split; reflexivity.
Qed.

Lemma generateOrganic_same :
  sameComposition (generateOrganic palette size)
                  (generateOrganic palette size').
Proof.
  intros st. unfold generateOrganic, randInt, bind, ret. cbv zeta.
  destruct (rand st) as [r st1]. unfold forLt.
  apply forFrom_same. apply organicBlob_same.
Qed.

Lemma circuitSegments_register (n : nat) :
  forall x y path x' y' path' st,
    snd (circuitSegments n x y path st)
    = snd (circuitSegments n x' y' path' st).
Proof.
  induction n as [|n IH]; intros x y path x' y' path' st;
    cbn [circuitSegments].
  - reflexivity.
  - unfold randInt, bind, ret.
    destruct (rand st) as [r1 st1]. destruct (rand st1) as [r2 st2].
    cbn [fst snd].
    destruct (match Js.floor (r1 * inject_Z 4) with 0 => _ | _ => _ end)
      as [x1 y1].
    destruct (match Js.floor (r1 * inject_Z 4) with 0 => _ | _ => _ end)
      as [x1' y1'].
    apply IH.
Qed.

Lemma circuitTrace_same (i : Z) :
  sameComposition (circuitTrace palette size i) (circuitTrace palette size' i).
Proof.
  intros st. unfold circuitTrace. unfold choose, randInt, bind, ret. cbv zeta.
  destruct (rand st) as [r1 st1].
  destruct (rand st1) as [r2 st2].
  destruct (rand st2) as [r3 st3].
  destruct (rand st3) as [r4 st4]. cbn [fst snd].
  set (n := trips _).
  assert (H := circuitSegments_register n
                 (scaled size r2) (scaled size r3)
                 [MoveTo (scaled size r2) (scaled size r3)]
                 (scaled size' r2) (scaled size' r3)
                 [MoveTo (scaled size' r2) (scaled size' r3)] st4).
  destruct (circuitSegments n (scaled size r2) _ _ st4) as [[[xe ye] pe] st5].
  destruct (circuitSegments n (scaled size' r2) _ _ st4)
    as [[[xe' ye'] pe'] st5'].
  cbn [fst snd] in *. subst. split; reflexivity.
Qed.

Lemma circuitNode_same (i : Z) :
  sameComposition (circuitNode palette size i) (circuitNode palette size' i).
Proof.
  intros st. unfold circuitNode. follow_draws; split; reflexivity.
Qed.

Lemma generateCircuit_same :
  sameComposition (generateCircuit palette size)
                  (generateCircuit palette size').
Proof.
  intros st. unfold generateCircuit, randInt, bind, ret. cbv zeta.
  destruct (rand st) as [r st1]. unfold forLt.
  destruct (forFrom_same _ _ circuitTrace_same
              (trips (inject_Z (15 + Js.floor (r * inject_Z 20)))) 0 st1)
    as [Hm Hs].
  destruct (forFrom 0 _ (circuitTrace palette size) st1) as [tr st2].
  destruct (forFrom 0 _ (circuitTrace palette size') st1) as [tr' st2'].
  cbn [fst snd] in *. subst st2'.
  destruct (forFrom_same _ _ circuitNode_same (trips 10) 0 st2) as [Hm' Hs'].
  destruct (forFrom 0 _ (circuitNode palette size) st2) as [nd st3].
  destruct (forFrom 0 _ (circuitNode palette size') st2) as [nd' st3'].
  cbn [fst snd] in *. subst st3'.
  split; [rewrite !map_app, Hm, Hm'; reflexivity | reflexivity].
Qed.

Lemma stacksLayer_same (i : Z) :
  sameComposition (stacksLayer size i) (stacksLayer size' i).
Proof.
  intros st. unfold stacksLayer. follow_draws; split; reflexivity.
Qed.

Lemma stacksParticle_same (i : Z) :
  sameComposition (stacksParticle size i) (stacksParticle size' i).
Proof.
  intros st. unfold stacksParticle. follow_draws; split; reflexivity.
Qed.

Lemma generateStacks_same :
  sameComposition (generateStacks size) (generateStacks size').
Proof.
  intros st. unfold generateStacks, bind, ret. cbv zeta.
  destruct (rand st) as [r st1]. unfold forLt.
  destruct (forFrom_same _ _ stacksLayer_same (trips 5) 0 st1) as [Hm Hs].
  destruct (forFrom 0 _ (stacksLayer size) st1) as [la st2].
  destruct (forFrom 0 _ (stacksLayer size') st1) as [la' st2'].
  cbn [fst snd] in *. subst st2'.
  destruct (forFrom_same _ _ stacksParticle_same (trips 20) 0 st2)
    as [Hm' Hs'].
  destruct (forFrom 0 _ (stacksParticle size) st2) as [pa st3].
  destruct (forFrom 0 _ (stacksParticle size') st2) as [pa' st3'].
  cbn [fst snd] in *. subst st3'.
  split; [| reflexivity].
  rewrite !map_app, Hm, Hm'. reflexivity.
Qed.

Lemma renderStyle_same (style : string) :
  style <> "pixel"%string ->
  sameComposition (renderStyle style palette size)
                  (renderStyle style palette size').
Proof.
  intros Hp. unfold renderStyle.
  destruct (String.eqb_spec style "pixel") as [-> | _]; [congruence |].
  repeat match goal with
         | |- sameComposition (if ?b then _ else _) _ => destruct b
         end;
    auto using generateGeometric_same, generateOrganic_same,
               generateCircuit_same, generateStacks_same.
Qed.

End SizeIndependence.

(** X11.  Outside the Pixel style the canvas size changes coordinates only: the
    documents of one seed and style at two sizes have the same gradient and
    the same elements by kind and colour, in the same order. *)
Theorem composition_independent_of_size :
  forall (seed : jsstring) (style : string) (size size' : Z),
    style <> "pixel"%string ->
    exists d d' : document,
      generateArt seed style size = Returns d /\
      generateArt seed style size' = Returns d' /\
      gradient d = gradient d' /\
      map skeleton (elements d) = map skeleton (elements d').
Proof.
  intros seed style size size' Hstyle.
  destruct (generateArt_spec seed style size) as (p & Hp & _ & _ & E & _).
  destruct (generateArt_spec seed style size') as (p' & Hp' & _ & _ & E' & _).
  assert (p' = p) by congruence. subst p'.
  eexists _, _. split; [exact E |]. split; [exact E' |].
  cbn [gradient elements].
  split; [reflexivity |].
  apply (renderStyle_same p size size' style Hstyle).
Qed.

Lemma composition_independent_of_size_witness :
  "circuit"%string <> "pixel"%string /\
  exists d d' : document,
    generateArt (units "abc") "circuit" 400 = Returns d /\
    generateArt (units "abc") "circuit" 200 = Returns d' /\
    gradient d = gradient d' /\
    map skeleton (elements d) = map skeleton (elements d').
Proof.
  assert (H : "circuit"%string <> "pixel"%string) by discriminate.
  split; [exact H |].
  apply (composition_independent_of_size (units "abc") "circuit" 400 200 H).
Defined.

(** * The traces of the Circuit renderer *)

Lemma circuitSegments_polyline (n : nat) :
  forall x y path,
    yields (circuitSegments n x y path)
           (fun res => exists segs,
                snd res = path ++ segs /\ List.length segs = n /\
                polyline (x, y) segs (fst res)).
Proof.
  induction n as [|n IH]; intros x y path; cbn [circuitSegments].
  - apply yields_ret. exists []. cbn [fst snd].
    split; [rewrite app_nil_r; reflexivity |].
    split; [reflexivity | constructor].
  - eapply yields_bind; [apply (yields_randInt 4); lia |].
    intros dir Hdir. cbv beta in Hdir.
    eapply yields_bind; [apply yields_rand |].
    intros r Hr. cbv beta in Hr. cbv zeta.
    assert (Hl : stepLength (Lit 30 + Lit r * Lit 80)%num).
    { eexists. split; [reflexivity | lra]. }
    assert (Hcases : dir = 0 \/ dir = 1 \/ dir = 2 \/ dir = 3) by lia.
    destruct Hcases as [-> | [-> | [-> | ->]]];
      (eapply yields_weaken; [apply IH |];
       intros [[xe ye] path'] (segs & Hp & Hlen & Hpoly);
       cbn [fst snd] in *;
       eexists (LineTo _ _ :: segs);
       split; [rewrite Hp, <- app_assoc; reflexivity |];
       split; [cbn [List.length]; rewrite Hlen; reflexivity |];
       eapply (polylineStep (x, y) (_, _)); [| exact Hpoly];
       constructor; exact Hl).
Qed.

(** X10.  A trace of the Circuit renderer is a stroked path, a move followed by
    three to seven segments, each a step of 30 to 110 along one axis, and
    after it a circle centred where the path ends, in the same colour. *)
Theorem circuit_trace_shape :
  forall (palette : list string) (size i : Z) (st : rng),
    0 <= st ->
    exists (start finish : num * num) (segs : list pathcmd) (c : colour),
      fst (circuitTrace palette size i st)
      = [pathStroke (MoveTo (fst start) (snd start) :: segs) c (Lit 3) (Lit 0.8);
         circle (fst finish) (snd finish) (Lit 6) c None] /\
      (3 <= List.length segs <= 7)%nat /\
      polyline start segs finish.
Proof.
  intros palette size i st Hst.
  assert (H : yields (circuitTrace palette size i)
                (fun l => exists start finish segs c,
                     l = [pathStroke (MoveTo (fst start) (snd start) :: segs)
                            c (Lit 3) (Lit 0.8);
                          circle (fst finish) (snd finish) (Lit 6) c None] /\
                     (3 <= List.length segs <= 7)%nat /\
                     polyline start segs finish)).
  { unfold circuitTrace. cbv zeta.
    eapply yields_bind; [apply yields_choose_any |]. intros c _.
    eapply yields_bind; [apply yields_rand_any |]. intros rx _.
    eapply yields_bind; [apply yields_rand_any |]. intros ry _.
    eapply yields_bind; [apply (yields_randInt 5); lia |].
    intros n Hn. cbv beta in Hn. rewrite trips_inject_Z.
    eapply yields_bind; [apply circuitSegments_polyline |].
    intros [[xe ye] path] (segs & Hp & Hlen & Hpoly). cbn [fst snd] in *.
    apply yields_ret.
    exists (scaled size rx, scaled size ry), (xe, ye), segs, c.
    cbn [fst snd]. subst path.
    split; [reflexivity |]. split; [lia | exact Hpoly]. }
  exact (proj1 (H st Hst)).
Qed.

Lemma circuit_trace_shape_witness :
  0 <= 12345 /\
  exists (start finish : num * num) (segs : list pathcmd) (c : colour),
    fst (circuitTrace ["#FF6B6B"; "#4ECDC4"]%string 400 0 12345)
    = [pathStroke (MoveTo (fst start) (snd start) :: segs) c (Lit 3) (Lit 0.8);
       circle (fst finish) (snd finish) (Lit 6) c None] /\
    (3 <= List.length segs <= 7)%nat /\
    polyline start segs finish.
Proof.
  assert (H : 0 <= 12345) by lia.
  split; [exact H |].
  apply (circuit_trace_shape ["#FF6B6B"; "#4ECDC4"]%string 400 0 12345 H).
Defined.

(** * The recurrence, rounded *)





(** Beyond the exact range the rounding may still leave the update as the
    exact recurrence has it: it does at 8162279. *)
Lemma rounding_can_be_invisible :
  2^53 <= 8162279 * 1103515245 + 12345 /\
  snd (rand 8162279) = spec_nextState 8162279.
Proof. split; [lia | vm_compute; reflexivity]. Qed.

(** * Returning, for a canvas of bounded size *)

Lemma renderStyle_count (style : string) (palette : list string)
      (size : Z) (st : rng) :
  size <= 4000 -> 0 <= st ->
  Z.of_nat (List.length (fst (renderStyle style palette size st))) <= 40000.
Proof.
  intros Hsize Hst. unfold renderStyle.
  repeat match goal with
         | |- context [if ?b then _ else _] => destruct b
         end.
  - assert (H := proj1 (generateGeometric_count palette size st Hst)).
    cbv beta in H. lia.
  - assert (H := proj1 (generateOrganic_count palette size st Hst)).
    cbv beta in H. lia.
  - destruct (generatePixel_cells palette size st) as (_ & Hlen & _).
    rewrite pixelCells_grid, gridCells_length in Hlen.
    assert (Hn : (size + 19) / 20 <= 200).
    { change 200 with (4019 / 20). apply Z.div_le_mono; lia. }
    set (n := Z.to_nat ((size + 19) / 20)) in *.
    assert (Hn' : Z.of_nat n <= 200) by lia.
    assert (Hnn : Z.of_nat (n * n) <= 200 * 200).
    { rewrite Nat2Z.inj_mul. apply Z.mul_le_mono_nonneg; lia. }
    lia.
  - assert (H := proj1 (generateCircuit_count palette size st Hst)).
    cbv beta in H. lia.
  - assert (H := proj1 (generateStacks_tags size st Hst)). cbv beta in H.
    rewrite <- (length_map elementTag), H. cbn. lia.
  - assert (H := proj1 (generateGeometric_count palette size st Hst)).
    cbv beta in H. lia.
Qed.

(** C1, as amended.  [generateArt] has no test on the canvas size and
    raises nothing, [InvalidCanvasSize] included: for every seed, every
    style identifier and every integer size from -4000 to 4000, also 0 and
    the negative ones, it returns a document, whose view box is
    [0 0 size size] and which has at most 40000 elements.  (The loops of
    the Pixel style and the text they build grow with the square of the
    size, and the code sets no limit of its own; nothing is stated beyond
    the bound.) *)
Theorem generateArt_returns_for_bounded_size :
  forall (seed : jsstring) (style : string) (size : Z),
    Z.abs size <= 4000 ->
    ~ raises (generateArt seed style size) /\
    exists d, generateArt seed style size = Returns d /\
              viewBox d = (0, 0, size, size) /\
              Z.of_nat (List.length (elements d)) <= 40000.
Proof.
  intros seed style size Hsize.
  destruct (generateArt_spec seed style size) as (p & _ & _ & _ & E & _).
  rewrite E. split; [intros [] |].
  eexists. split; [reflexivity |]. split; [reflexivity |].
  cbn [elements]. apply renderStyle_count; [lia |].
  apply drawing_register_nonneg.
Qed.

Lemma generateArt_returns_for_bounded_size_witness :
  Z.abs 0 <= 4000 /\ Z.abs (-400) <= 4000 /\
  ~ raises (generateArt (units "abc") "pixel" 0) /\
  ~ raises (generateArt (units "abc") "pixel" (-400)).
Proof.
  assert (H0 : Z.abs 0 <= 4000) by (cbn; lia).
  assert (H1 : Z.abs (-400) <= 4000) by (cbn; lia).
  split; [exact H0 |]. split; [exact H1 |]. split.
  - exact (proj1 (generateArt_returns_for_bounded_size
                    (units "abc") "pixel" 0 H0)).
  - exact (proj1 (generateArt_returns_for_bounded_size
                    (units "abc") "pixel" (-400) H1)).
Defined.

(** * The rectangles of the Pixel renderer *)

Lemma NoDup_map_inj {A B} (f : A -> B) (l : list A) :
  (forall x y, f x = f y -> x = y) -> NoDup l -> NoDup (map f l).
Proof.
  intros Hinj. induction 1 as [|a l Hnin _ IH]; cbn [map]; constructor.
  - intros Hin. apply in_map_iff in Hin. destruct Hin as (x & Hx & Hin).
    apply Hinj in Hx. subst x. contradiction.
  - exact IH.
Qed.

Lemma upto_NoDup (n : nat) : NoDup (upto n).
Proof.
  unfold upto. apply NoDup_map_inj; [apply Nat2Z.inj | apply seq_NoDup].
Qed.

Lemma gridCells_NoDup (n : nat) : NoDup (gridCells n).
Proof.
  unfold gridCells.
  assert (H : forall l : list Z,
             NoDup l ->
             NoDup (flat_map (fun x => map (fun y => (x, y)) (upto n)) l)).
  { induction 1 as [|x l Hnin _ IH]; cbn [flat_map]; [constructor |].
    apply NoDup_app.
    - apply NoDup_map_inj; [| apply upto_NoDup]. intros y y' [= ->].
      reflexivity.
    - exact IH.
    - intros c Hc Hc'. apply in_map_iff in Hc. destruct Hc as (y & <- & _).
      apply in_flat_map in Hc'. destruct Hc' as (x' & Hx' & Hc').
      apply in_map_iff in Hc'. destruct Hc' as (y' & [= -> _] & _).
      contradiction. }
  apply H. apply upto_NoDup.
Qed.

Lemma forEach_pixelCell_subseq (palette : list string) (l : list (Z * Z)) :
  forall st out st',
    forEach l (fun c => pixelCell palette (fst c) (snd c)) st = (out, st') ->
    exists filled : list (Z * Z),
      subseq filled l /\
      Forall2 (fun c e => exists fill opacity, e = cellRect c fill opacity)
              filled out /\
      st' = after (List.length l + 2 * List.length filled) st.
Proof.
  induction l as [|c l IH]; intros st out st' E; cbn [forEach] in E.
  - apply pair_equal_spec in E. destruct E as [<- <-].
    exists []. split; [constructor |]. split; [constructor | reflexivity].
  - unfold bind, ret in E. rewrite pixelCell_steps in E.
    destruct (Js.gt (fst (rand st)) 0.4); cbv beta iota in E.
    + destruct (forEach l _ (after 3 st)) as [rest st''] eqn:E'.
      apply pair_equal_spec in E. destruct E as [<- <-].
      destruct (IH _ _ _ E') as (filled & Hsub & Hall & Hst).
      exists (c :: filled). split; [constructor; exact Hsub |]. split.
      * cbn [app]. constructor; [| exact Hall].
        eexists _, _. reflexivity.
      * rewrite Hst, <- after_add. f_equal. cbn [List.length]. lia.
    + destruct (forEach l _ (after 1 st)) as [rest st''] eqn:E'.
      apply pair_equal_spec in E. destruct E as [<- <-].
      destruct (IH _ _ _ E') as (filled & Hsub & Hall & Hst).
      exists filled. split; [constructor; exact Hsub |]. split.
      * exact Hall.
      * rewrite Hst, <- after_add. f_equal.
Qed.

(** X9.  The rectangles the Pixel renderer writes are those of a selection
    of the visited cells, one rectangle for each selected cell and in the
    order of the visit; no cell is visited twice, so no cell gets two
    rectangles; every visited cell starts inside the canvas; and the
    renderer makes one draw per visited cell plus two per rectangle. *)
Theorem pixel_structure :
  forall (palette : list string) (size : Z) (st : rng),
  exists filled : list (Z * Z),
    subseq filled (pixelCells size) /\
    NoDup (pixelCells size) /\
    Forall2 (fun c e => exists fill opacity, e = cellRect c fill opacity)
            filled (fst (generatePixel palette size st)) /\
    Forall (fun c => 0 <= 20 * fst c < size /\ 0 <= 20 * snd c < size)
           (pixelCells size) /\
    snd (generatePixel palette size st)
    = after (List.length (pixelCells size) + 2 * List.length filled) st.
Proof.
  intros palette size st.
  unfold generatePixel. rewrite pixelLoops_forEach, pixelCells_grid.
  set (n := Z.to_nat ((size + 19) / 20)).
  destruct (forEach (gridCells n) _ st) as [out st'] eqn:E.
  destruct (forEach_pixelCell_subseq palette _ _ _ _ E)
    as (filled & Hsub & Hall & Hst).
  exists filled. cbn [fst snd].
  split; [exact Hsub |]. split; [apply gridCells_NoDup |].
  split; [exact Hall |]. split; [| exact Hst].
  apply Forall_forall. intros c Hin.
  apply gridCells_bounds in Hin. unfold n in Hin.
  assert (20 * ((size + 19) / 20) <= size + 19)
    by (apply Z.mul_div_le; lia).
  lia.
Qed.
